(** * Catalog manager: a shallow embedding of [main.py]

    The development follows the layout of the program: the entity model
    ([Author], [Category], [Article]), the factories, and the
    [CatalogManager] facade with its JSON-backed persistence.

    Modelling conventions.
    - Python objects with identity live in a heap; a reference is an index
      into the heap of its class, so two names for one object are one index.
    - A method is a computation in a state-and-exception monad: a raised
      exception keeps every mutation made before it, as in Python.
    - The persisted document is the typed shape the program reads and writes:
      three lists of records whose fields are strings (the constructors are
      annotated [str] in the source). A file whose JSON has another shape is
      outside the model.
    - [datetime.now()] is an argument of the operations that read the clock.
    - The [json] library and the file system are the program's environment:
      the codec is an interface ([JSON]), the disk a finite map of paths.
      The disk refuses a write for one reason, a write-protected path; the
      other ways in which [open] can fail (a missing directory, a path that
      is a directory) and a write that breaks off after the file was
      truncated are outside the model, and the statements that depend on
      the outcome of a write say which outcome they are about. *)

From Stdlib Require Import ZArith Ascii String.
From stdpp Require Import base gmap list strings.

Local Open Scope string_scope.
Local Open Scope list_scope.

(** ** Exceptions and the method monad *)

Inductive exn :=
  | FileNotFoundError
  | PermissionError
  | JSONDecodeError
  | AttributeError
  | IndexError
  | ValueError.

Global Instance exn_eq_dec : EqDecision exn.
Proof. solve_decision. Defined.

Inductive result (A : Type) :=
  | Ok (a : A)
  | Raise (e : exn).
Arguments Ok {A} a.
Arguments Raise {A} e.

(** A computation over a mutable state [S]: the final state is returned also
    when an exception is raised. *)
Definition M (S A : Type) : Type := S -> S * result A.

Global Instance M_ret {S} : MRet (M S) := fun A a s => (s, Ok a).

Global Instance M_bind {S} : MBind (M S) := fun A B f c s =>
  match c s with
  | (s', Ok a) => f a s'
  | (s', Raise e) => (s', Raise e)
  end.

Definition raise {S A} (e : exn) : M S A := fun s => (s, Raise e).

Definition gets {S A} (f : S -> A) : M S A := fun s => (s, Ok (f s)).

Definition modify {S} (f : S -> S) : M S unit := fun s => (f s, Ok tt).

(** [if b: body] *)
Definition when {S} (b : bool) (body : M S unit) : M S unit :=
  if b then body else mret tt.

(** [try: body except (e1, ...): handler]. Other exceptions propagate. *)
Definition try_except {S A} (body : M S A) (caught : list exn) (handler : M S A) : M S A :=
  fun s =>
    match body s with
    | (s', Ok a) => (s', Ok a)
    | (s', Raise e) => if decide (e ∈ caught) then handler s' else (s', Raise e)
    end.

(** ** datetime *)

Record datetime := {
  year : nat; month : nat; day : nat;
  hour : nat; minute : nat; second : nat; microsecond : nat
}.

Definition digit (n : nat) : ascii := ascii_of_nat (48 + n mod 10).

Definition pad2 (n : nat) : string :=
  String (digit (n / 10)) (String (digit n) EmptyString).

Definition pad4 (n : nat) : string :=
  String (digit (n / 1000)) (String (digit (n / 100)) (pad2 n)).

(** [d.strftime("%Y-%m-%d %H:%M:%S")], for the four-digit years the clock
    yields. *)
Definition strftime (d : datetime) : string :=
  pad4 (year d) +:+ "-" +:+ pad2 (month d) +:+ "-" +:+ pad2 (day d) +:+ " " +:+
  pad2 (hour d) +:+ ":" +:+ pad2 (minute d) +:+ ":" +:+ pad2 (second d).

(** ** The persisted document *)

Record AuthorRec := { a_name : string; a_email : string }.
Record CategoryRec := { c_name : string }.
Record ArticleRec := {
  r_title : string;
  r_content : string;
  r_author : string;
  r_category : string;
  r_published_at : string
}.

Record Document := {
  doc_authors : list AuthorRec;
  doc_categories : list CategoryRec;
  doc_articles : list ArticleRec
}.

(** The [json] module as the program uses it: [json.dump(data, file,
    indent=4)] produces a text, [json.load(file)] decodes one or raises
    [JSONDecodeError] ([None]). *)
Class JSON := {
  json_dump : Document -> string;
  json_load : string -> option Document
}.

(** ** The runtime: object heap, disk and terminal *)

(** A reference: the position of the object in the heap of its class. *)
Abbreviation loc := nat (only parsing).

(** The private fields of the three classes. [articles] are the
    back-references filled in by [Article.__init__]. *)
Record AuthorObj := {
  author_name : string;
  author_email : string;
  author_articles : list loc
}.

Record CategoryObj := {
  cat_name : string;
  cat_articles : list loc
}.

Record ArticleObj := {
  article_title : string;
  article_content : string;
  article_author : loc;
  article_category : loc;
  article_published_at : option datetime
}.

Record World := {
  files : gmap string string;
  readonly : gset string
}.

Record Runtime := {
  author_objs : list AuthorObj;
  category_objs : list CategoryObj;
  article_objs : list ArticleObj;
  disk : World;
  stdout : list string
}.

Definition set_author_objs (h : list AuthorObj) (r : Runtime) : Runtime :=
  {| author_objs := h; category_objs := category_objs r;
     article_objs := article_objs r; disk := disk r; stdout := stdout r |}.

Definition set_category_objs (h : list CategoryObj) (r : Runtime) : Runtime :=
  {| author_objs := author_objs r; category_objs := h;
     article_objs := article_objs r; disk := disk r; stdout := stdout r |}.

Definition set_article_objs (h : list ArticleObj) (r : Runtime) : Runtime :=
  {| author_objs := author_objs r; category_objs := category_objs r;
     article_objs := h; disk := disk r; stdout := stdout r |}.

Definition set_disk (w : World) (r : Runtime) : Runtime :=
  {| author_objs := author_objs r; category_objs := category_objs r;
     article_objs := article_objs r; disk := w; stdout := stdout r |}.

Definition set_stdout (o : list string) (r : Runtime) : Runtime :=
  {| author_objs := author_objs r; category_objs := category_objs r;
     article_objs := article_objs r; disk := disk r; stdout := o |}.

(** [print(line)] *)
Definition print (line : string) : M Runtime unit :=
  modify (fun r => set_stdout (stdout r ++ [line]) r).

(** [open(path, "r")] followed by reading the whole file. *)
Definition open_read (path : string) : M Runtime string :=
  fun r =>
    match files (disk r) !! path with
    | Some text => (r, Ok text)
    | None => (r, Raise FileNotFoundError)
    end.

(** [open(path, "w")] followed by writing [text]: the file is replaced as a
    whole, or the open is refused ([PermissionError], an [OSError]) and
    nothing is written. Write protection is the one refusal modelled. *)
Definition open_write (path text : string) : M Runtime unit :=
  fun r =>
    if decide (path ∈ readonly (disk r)) then (r, Raise PermissionError)
    else (set_disk {| files := <[path := text]> (files (disk r));
                      readonly := readonly (disk r) |} r, Ok tt).

(** ** Entity model *)

Module Author.
Definition __init__ (name email : string) : M Runtime loc :=
  self ← gets (fun r => length (author_objs r));
  _ ← modify (fun r =>
    set_author_objs
      (author_objs r ++
         [{| author_name := name; author_email := email; author_articles := [] |}]) r);
  mret self.

Definition read (self : loc) : M Runtime AuthorObj :=
  fun r =>
    match author_objs r !! self with
    | Some o => (r, Ok o)
    | None => (r, Raise AttributeError)
    end.

Definition name (self : loc) : M Runtime string :=
  o ← read self; mret (author_name o).

Definition email (self : loc) : M Runtime string :=
  o ← read self; mret (author_email o).

Definition add_article (self article : loc) : M Runtime unit :=
  o ← read self;
  modify (fun r =>
    set_author_objs
      (<[self := {| author_name := author_name o; author_email := author_email o;
                    author_articles := author_articles o ++ [article] |}]>
         (author_objs r)) r).
End Author.

Module Category.
Definition __init__ (name : string) : M Runtime loc :=
  self ← gets (fun r => length (category_objs r));
  _ ← modify (fun r =>
    set_category_objs
      (category_objs r ++ [{| cat_name := name; cat_articles := [] |}]) r);
  mret self.

Definition read (self : loc) : M Runtime CategoryObj :=
  fun r =>
    match category_objs r !! self with
    | Some o => (r, Ok o)
    | None => (r, Raise AttributeError)
    end.

Definition name (self : loc) : M Runtime string :=
  o ← read self; mret (cat_name o).

Definition add_article (self article : loc) : M Runtime unit :=
  o ← read self;
  modify (fun r =>
    set_category_objs
      (<[self := {| cat_name := cat_name o;
                    cat_articles := cat_articles o ++ [article] |}]>
         (category_objs r)) r).
End Category.

Module Article.
Definition read (self : loc) : M Runtime ArticleObj :=
  fun r =>
    match article_objs r !! self with
    | Some o => (r, Ok o)
    | None => (r, Raise AttributeError)
    end.

(** The constructor registers the new article with its author and its
    category. *)
Definition __init__ (title content : string) (author category : loc) : M Runtime loc :=
  self ← gets (fun r => length (article_objs r));
  _ ← modify (fun r =>
    set_article_objs
      (article_objs r ++
         [{| article_title := title; article_content := content;
             article_author := author; article_category := category;
             article_published_at := None |}]) r);
  _ ← Author.add_article author self;
  _ ← Category.add_article category self;
  mret self.

Definition title (self : loc) : M Runtime string :=
  o ← read self; mret (article_title o).

Definition content (self : loc) : M Runtime string :=
  o ← read self; mret (article_content o).

Definition published_at (self : loc) : M Runtime (option datetime) :=
  o ← read self; mret (article_published_at o).

(** [publish] with [now] the value of [datetime.now()]. *)
Definition publish (self : loc) (now : datetime) : M Runtime unit :=
  o ← read self;
  modify (fun r =>
    set_article_objs
      (<[self := {| article_title := article_title o;
                    article_content := article_content o;
                    article_author := article_author o;
                    article_category := article_category o;
                    article_published_at := Some now |}]>
         (article_objs r)) r).
End Article.

(** ** Factories *)

Module EntityFactory.
(** The dictionary is passed by reference and updated in place: the
    function returns it next to the author. *)
Definition get_or_create_author (name email : string) (authors : gmap string loc)
  : M Runtime (loc * gmap string loc) :=
  match authors !! email with
  | Some author => mret (author, authors)
  | None =>
      author ← Author.__init__ name email;
      mret (author, <[email := author]> authors)
  end.

Definition get_or_create_category (name : string) (categories : gmap string loc)
  : M Runtime (loc * gmap string loc) :=
  match categories !! name with
  | Some category => mret (category, categories)
  | None =>
      category ← Category.__init__ name;
      mret (category, <[name := category]> categories)
  end.
End EntityFactory.

Module ArticleFactory.
Definition create_article (title content : string) (author category : loc)
    (now : datetime) : M Runtime loc :=
  article ← Article.__init__ title content author category;
  _ ← Article.publish article now;
  mret article.
End ArticleFactory.

(** ** Facade *)

(** [l[i]] on a Python list: a negative index counts from the end, an index
    out of range raises [IndexError] ([None]). *)
Definition list_getitem {A} (l : list A) (i : Z) : option A :=
  let j := if (i <? 0)%Z then (i + Z.of_nat (length l))%Z else i in
  if (j <? 0)%Z then None else l !! Z.to_nat j.

Fixpoint for_each {S A} (l : list A) (body : A -> M S unit) : M S unit :=
  match l with
  | [] => mret tt
  | x :: l' => _ ← body x; for_each l' body
  end.

Definition nl : string := String "010"%char EmptyString.

Module CatalogManager.
Record t := {
  filepath : string;
  data : Document;
  authors : gmap string loc;
  categories : gmap string loc
}.

(** The manager object together with the runtime it runs in. *)
Record state := { rt : Runtime; self : t }.

Definition lift {A} (c : M Runtime A) : M state A :=
  fun m => let '(r, x) := c (rt m) in ({| rt := r; self := self m |}, x).

Definition set_data (d : Document) (m : state) : state :=
  {| rt := rt m;
     self := {| filepath := filepath (self m); data := d;
                authors := authors (self m); categories := categories (self m) |} |}.

Definition set_authors (a : gmap string loc) (m : state) : state :=
  {| rt := rt m;
     self := {| filepath := filepath (self m); data := data (self m);
                authors := a; categories := categories (self m) |} |}.

Definition set_categories (c : gmap string loc) (m : state) : state :=
  {| rt := rt m;
     self := {| filepath := filepath (self m); data := data (self m);
                authors := authors (self m); categories := c |} |}.

Definition empty_document : Document :=
  {| doc_authors := []; doc_categories := []; doc_articles := [] |}.

Section WithJSON.
Context `{JSON}.

Definition json_load_file (text : string) : M Runtime Document :=
  match json_load text with
  | Some d => mret d
  | None => raise JSONDecodeError
  end.

Definition load (filepath : string) : M Runtime Document :=
  try_except
    (text ← open_read filepath; json_load_file text)
    [FileNotFoundError]
    (mret empty_document).

(** [{a["email"]: Author(a["name"], a["email"]) for a in ...}] *)
Fixpoint authors_by_email (records : list AuthorRec) (acc : gmap string loc)
  : M Runtime (gmap string loc) :=
  match records with
  | [] => mret acc
  | a :: rest =>
      o ← Author.__init__ (a_name a) (a_email a);
      authors_by_email rest (<[a_email a := o]> acc)
  end.

(** [{c["name"]: Category(c["name"]) for c in ...}] *)
Fixpoint categories_by_name (records : list CategoryRec) (acc : gmap string loc)
  : M Runtime (gmap string loc) :=
  match records with
  | [] => mret acc
  | c :: rest =>
      o ← Category.__init__ (c_name c);
      categories_by_name rest (<[c_name c := o]> acc)
  end.

Definition __init__ (filepath : string) : M Runtime t :=
  data ← load filepath;
  authors ← authors_by_email (doc_authors data) ∅;
  categories ← categories_by_name (doc_categories data) ∅;
  mret {| filepath := filepath; data := data;
          authors := authors; categories := categories |}.

Definition save : M state unit :=
  fun m => lift (open_write (filepath (self m)) (json_dump (data (self m)))) m.

(** [any(a["email"] == author.email for a in records)] *)
Fixpoint any_email (records : list AuthorRec) (author : loc) : M Runtime bool :=
  match records with
  | [] => mret false
  | a :: rest =>
      e ← Author.email author;
      if String.eqb (a_email a) e then mret true else any_email rest author
  end.

(** [any(c["name"] == category.name for c in records)] *)
Fixpoint any_name (records : list CategoryRec) (category : loc) : M Runtime bool :=
  match records with
  | [] => mret false
  | c :: rest =>
      n ← Category.name category;
      if String.eqb (c_name c) n then mret true else any_name rest category
  end.

Definition append_author (a : AuthorRec) (m : state) : state :=
  set_data {| doc_authors := doc_authors (data (self m)) ++ [a];
              doc_categories := doc_categories (data (self m));
              doc_articles := doc_articles (data (self m)) |} m.

Definition append_category (c : CategoryRec) (m : state) : state :=
  set_data {| doc_authors := doc_authors (data (self m));
              doc_categories := doc_categories (data (self m)) ++ [c];
              doc_articles := doc_articles (data (self m)) |} m.

Definition append_article (a : ArticleRec) (m : state) : state :=
  set_data {| doc_authors := doc_authors (data (self m));
              doc_categories := doc_categories (data (self m));
              doc_articles := doc_articles (data (self m)) ++ [a] |} m.

Definition add_article (name email category_name title content : string)
    (now : datetime) : M state loc :=
  authors0 ← gets (fun m => authors (self m));
  '(author, authors1) ← lift (EntityFactory.get_or_create_author name email authors0);
  _ ← modify (set_authors authors1);
  categories0 ← gets (fun m => categories (self m));
  '(category, categories1) ←
    lift (EntityFactory.get_or_create_category category_name categories0);
  _ ← modify (set_categories categories1);
  article ← lift (ArticleFactory.create_article title content author category now);

  author_records ← gets (fun m => doc_authors (data (self m)));
  known_author ← lift (any_email author_records author);
  _ ← when (negb known_author)
        (n ← lift (Author.name author);
         e ← lift (Author.email author);
         modify (append_author {| a_name := n; a_email := e |}));

  category_records ← gets (fun m => doc_categories (data (self m)));
  known_category ← lift (any_name category_records category);
  _ ← when (negb known_category)
        (n ← lift (Category.name category);
         modify (append_category {| c_name := n |}));

  title' ← lift (Article.title article);
  content' ← lift (Article.content article);
  email' ← lift (Author.email author);
  name' ← lift (Category.name category);
  published ← lift (Article.published_at article);
  stamp ← match published with
          | Some d => mret (strftime d)
          | None => raise AttributeError
          end;
  _ ← modify (append_article
                {| r_title := title'; r_content := content'; r_author := email';
                   r_category := name'; r_published_at := stamp |});

  _ ← save;
  mret article.

Definition list_articles : M state (list ArticleRec) :=
  gets (fun m => doc_articles (data (self m))).

Definition show_catalog : M state unit :=
  _ ← lift (print (nl +:+ "=== CATÁLOGO ==="));
  _ ← lift (print (nl +:+ "🧠 Autores:"));
  author_records ← gets (fun m => doc_authors (data (self m)));
  _ ← for_each author_records (fun author : AuthorRec =>
        lift (print ("- " +:+ a_name author +:+ " (" +:+ a_email author +:+ ")")));
  _ ← lift (print (nl +:+ "📁 Categorias:"));
  category_records ← gets (fun m => doc_categories (data (self m)));
  _ ← for_each category_records (fun category : CategoryRec =>
        lift (print ("- " +:+ c_name category)));
  _ ← lift (print (nl +:+ "📝 Artigos:"));
  article_records ← gets (fun m => doc_articles (data (self m)));
  for_each article_records (fun article : ArticleRec =>
    lift (print ("- '" +:+ r_title article +:+ "' por " +:+ r_author article +:+
                 " em " +:+ r_category article +:+
                 " (" +:+ r_published_at article +:+ ")"))).

(** The two lines printed for the selected record. *)
Definition render_article (a : ArticleRec) : list string :=
  [ nl +:+ "=== ARTIGO SELECIONADO ===";
    "Título: " +:+ r_title a +:+ nl +:+
    "Autor: " +:+ r_author a +:+ nl +:+
    "Categoria: " +:+ r_category a +:+ nl +:+
    "Publicado em: " +:+ r_published_at a +:+ nl +:+ nl +:+
    "Conteúdo:" +:+ nl +:+ r_content a ].

Definition show_article (index : Z) : M state unit :=
  articles ← gets (fun m => doc_articles (data (self m)));
  if ((0 <=? index)%Z && (index <? Z.of_nat (length articles))%Z)%bool then
    match list_getitem articles index with
    | Some a => for_each (render_article a) (fun line => lift (print line))
    | None => raise IndexError
    end
  else mret tt.
End WithJSON.
End CatalogManager.

Module ReadArticleCommand.
Section WithJSON.
Context `{JSON}.

(** The [try] block of [execute] once [int(input(...))] has produced
    [escolha]: the 1-based choice is shifted to a 0-based index. *)
Definition select (escolha : Z) : M CatalogManager.state unit :=
  try_except
    (CatalogManager.show_article (escolha - 1))
    [ValueError; IndexError]
    (CatalogManager.lift (print (nl +:+ "Entrada inválida."))).
End WithJSON.
End ReadArticleCommand.

(** ** A codec for the document format

    An implementation of the [JSON] interface, used to run the program on
    concrete disks. [dump] prints what [json.dump(data, file, indent=4)]
    prints for a document whose strings are ASCII (four spaces per level);
    a character above 127 is escaped here as one unit, where [json] escapes
    code points, so the two agree on ASCII strings only. [load] reads the
    texts of the layout that [dump] prints, in its key order and with its
    escapes, with any amount of whitespace between the tokens; for every
    other text, other JSON included, it answers [None]. *)

Module Codec.
Definition dq : ascii := "034"%char.

Definition hex_digit (n : nat) : ascii :=
  match n with
  | 0 => "0" | 1 => "1" | 2 => "2" | 3 => "3" | 4 => "4" | 5 => "5" | 6 => "6"
  | 7 => "7" | 8 => "8" | 9 => "9" | 10 => "a" | 11 => "b" | 12 => "c"
  | 13 => "d" | 14 => "e" | _ => "f"
  end%char.

(** One character of a string literal, as [ensure_ascii=True] writes it. *)
Definition escape_char (c : ascii) : string :=
  let n := nat_of_ascii c in
  if Nat.eqb n 34 then String "\" (String dq EmptyString)
  else if Nat.eqb n 92 then "\\"
  else if Nat.eqb n 10 then "\n"
  else if Nat.eqb n 13 then "\r"
  else if Nat.eqb n 9 then "\t"
  else if Nat.eqb n 8 then "\b"
  else if Nat.eqb n 12 then "\f"
  else if (Nat.leb 32 n && Nat.leb n 126)%bool then String c EmptyString
  else "\u00" +:+ String (hex_digit (n / 16)) (String (hex_digit (n mod 16)) EmptyString).

Fixpoint escape (s : string) : string :=
  match s with
  | EmptyString => EmptyString
  | String c s' => escape_char c +:+ escape s'
  end.

Definition dump_string (s : string) : string :=
  String dq (escape s +:+ String dq EmptyString).

Fixpoint spaces (n : nat) : string :=
  match n with
  | 0 => EmptyString
  | S n' => String " " (spaces n')
  end.

Definition indent (level : nat) : string := nl +:+ spaces (4 * level).

Definition dump_field (level : nat) (key value : string) : string :=
  indent level +:+ dump_string key +:+ ": " +:+ value.

Fixpoint join_items (level : nat) (items : list string) : string :=
  match items with
  | [] => EmptyString
  | [x] => indent level +:+ x
  | x :: rest => indent level +:+ x +:+ "," +:+ join_items level rest
  end.

Definition dump_list (level : nat) (items : list string) : string :=
  match items with
  | [] => "[]"
  | _ => "[" +:+ join_items (S level) items +:+ indent level +:+ "]"
  end.

Definition dump_author (level : nat) (a : AuthorRec) : string :=
  "{" +:+ dump_field (S level) "name" (dump_string (a_name a)) +:+ "," +:+
          dump_field (S level) "email" (dump_string (a_email a)) +:+
  indent level +:+ "}".

Definition dump_category (level : nat) (c : CategoryRec) : string :=
  "{" +:+ dump_field (S level) "name" (dump_string (c_name c)) +:+
  indent level +:+ "}".

Definition dump_article (level : nat) (a : ArticleRec) : string :=
  "{" +:+ dump_field (S level) "title" (dump_string (r_title a)) +:+ "," +:+
          dump_field (S level) "content" (dump_string (r_content a)) +:+ "," +:+
          dump_field (S level) "author" (dump_string (r_author a)) +:+ "," +:+
          dump_field (S level) "category" (dump_string (r_category a)) +:+ "," +:+
          dump_field (S level) "published_at" (dump_string (r_published_at a)) +:+
  indent level +:+ "}".

Definition dump (d : Document) : string :=
  "{" +:+ dump_field 1 "authors" (dump_list 1 (dump_author 2 <$> doc_authors d)) +:+ "," +:+
          dump_field 1 "categories"
            (dump_list 1 (dump_category 2 <$> doc_categories d)) +:+ "," +:+
          dump_field 1 "articles" (dump_list 1 (dump_article 2 <$> doc_articles d)) +:+
  indent 0 +:+ "}".

(** *** Reading: a scanner, then a parser of the token list *)

Inductive token :=
  | LBrace | RBrace | LBracket | RBracket | Colon | Comma
  | Str (s : string).

Inductive scan_state :=
  | Outside
  | InString (acc : string)
  | Escaped (acc : string)
  | Unicode (acc : string) (digits : list nat).

Definition hex_value (c : ascii) : option nat :=
  let n := nat_of_ascii c in
  if (Nat.leb 48 n && Nat.leb n 57)%bool then Some (n - 48)
  else if (Nat.leb 97 n && Nat.leb n 102)%bool then Some (n - 87)
  else if (Nat.leb 65 n && Nat.leb n 70)%bool then Some (n - 55)
  else None.

Definition is_space (c : ascii) : bool :=
  let n := nat_of_ascii c in
  (Nat.eqb n 32 || Nat.eqb n 10 || Nat.eqb n 13 || Nat.eqb n 9)%bool.

Definition snoc (acc : string) (c : ascii) : string := acc +:+ String c EmptyString.

Definition unescape (c : ascii) : option ascii :=
  let n := nat_of_ascii c in
  if Nat.eqb n 34 then Some dq
  else if Nat.eqb n 92 then Some "\"%char
  else if Nat.eqb n 47 then Some "/"%char
  else if Nat.eqb n 110 then Some "010"%char
  else if Nat.eqb n 114 then Some "013"%char
  else if Nat.eqb n 116 then Some "009"%char
  else if Nat.eqb n 98 then Some "008"%char
  else if Nat.eqb n 102 then Some "012"%char
  else None.

Fixpoint scan (st : scan_state) (s : string) : option (list token) :=
  match s with
  | EmptyString =>
      match st with
      | Outside => Some []
      | _ => None
      end
  | String c s' =>
      match st with
      | Outside =>
          if is_space c then scan Outside s'
          else if Ascii.eqb c dq then scan (InString EmptyString) s'
          else
            match
              (if Ascii.eqb c "{" then Some LBrace
               else if Ascii.eqb c "}" then Some RBrace
               else if Ascii.eqb c "[" then Some LBracket
               else if Ascii.eqb c "]" then Some RBracket
               else if Ascii.eqb c ":" then Some Colon
               else if Ascii.eqb c "," then Some Comma
               else None)
            with
            | Some t => cons t <$> scan Outside s'
            | None => None
            end
      | InString acc =>
          if Ascii.eqb c dq then cons (Str acc) <$> scan Outside s'
          else if Ascii.eqb c "\" then scan (Escaped acc) s'
          else if Nat.ltb (nat_of_ascii c) 32 then None
          else scan (InString (snoc acc c)) s'
      | Escaped acc =>
          if Ascii.eqb c "u" then scan (Unicode acc []) s'
          else
            match unescape c with
            | Some c' => scan (InString (snoc acc c')) s'
            | None => None
            end
      | Unicode acc digits =>
          match hex_value c with
          | None => None
          | Some v =>
              match digits with
              | [d1; d2; d3] =>
                  if (Nat.eqb d1 0 && Nat.eqb d2 0)%bool
                  then scan (InString (snoc acc (ascii_of_nat (16 * d3 + v)))) s'
                  else None
              | _ => scan (Unicode acc (digits ++ [v])) s'
              end
          end
      end
  end.

Fixpoint parse_authors (ts : list token) : option (list AuthorRec * list token) :=
  match ts with
  | LBrace :: Str k1 :: Colon :: Str v1 :: Comma ::
    Str k2 :: Colon :: Str v2 :: RBrace :: sep :: rest =>
      if (String.eqb k1 "name" && String.eqb k2 "email")%bool then
        let a := {| a_name := v1; a_email := v2 |} in
        match sep with
        | RBracket => Some ([a], rest)
        | Comma =>
            match parse_authors rest with
            | Some (l, rest') => Some (a :: l, rest')
            | None => None
            end
        | _ => None
        end
      else None
  | _ => None
  end.

Fixpoint parse_categories (ts : list token) : option (list CategoryRec * list token) :=
  match ts with
  | LBrace :: Str k1 :: Colon :: Str v1 :: RBrace :: sep :: rest =>
      if String.eqb k1 "name" then
        let c := {| c_name := v1 |} in
        match sep with
        | RBracket => Some ([c], rest)
        | Comma =>
            match parse_categories rest with
            | Some (l, rest') => Some (c :: l, rest')
            | None => None
            end
        | _ => None
        end
      else None
  | _ => None
  end.

Fixpoint parse_articles (ts : list token) : option (list ArticleRec * list token) :=
  match ts with
  | LBrace :: Str k1 :: Colon :: Str v1 :: Comma ::
    Str k2 :: Colon :: Str v2 :: Comma ::
    Str k3 :: Colon :: Str v3 :: Comma ::
    Str k4 :: Colon :: Str v4 :: Comma ::
    Str k5 :: Colon :: Str v5 :: RBrace :: sep :: rest =>
      if (String.eqb k1 "title" && String.eqb k2 "content" && String.eqb k3 "author" &&
          String.eqb k4 "category" && String.eqb k5 "published_at")%bool then
        let a := {| r_title := v1; r_content := v2; r_author := v3;
                    r_category := v4; r_published_at := v5 |} in
        match sep with
        | RBracket => Some ([a], rest)
        | Comma =>
            match parse_articles rest with
            | Some (l, rest') => Some (a :: l, rest')
            | None => None
            end
        | _ => None
        end
      else None
  | _ => None
  end.

(** A list value: [[]] or the items up to the closing bracket. *)
Definition parse_list {A} (items : list token -> option (list A * list token))
    (ts : list token) : option (list A * list token) :=
  match ts with
  | LBracket :: RBracket :: rest => Some ([], rest)
  | LBracket :: rest => items rest
  | _ => None
  end.

Definition parse_key (key : string) (ts : list token) : option (list token) :=
  match ts with
  | Str k :: Colon :: rest => if String.eqb k key then Some rest else None
  | _ => None
  end.

Definition expect (t : token) (ts : list token) : option (list token) :=
  match ts, t with
  | LBrace :: rest, LBrace => Some rest
  | RBrace :: rest, RBrace => Some rest
  | Comma :: rest, Comma => Some rest
  | _, _ => None
  end.

Definition parse_document (ts : list token) : option Document :=
  ts ← expect LBrace ts;
  ts ← parse_key "authors" ts;
  '(authors, ts) ← parse_list parse_authors ts;
  ts ← expect Comma ts;
  ts ← parse_key "categories" ts;
  '(categories, ts) ← parse_list parse_categories ts;
  ts ← expect Comma ts;
  ts ← parse_key "articles" ts;
  '(articles, ts) ← parse_list parse_articles ts;
  ts ← expect RBrace ts;
  match ts with
  | [] => Some {| doc_authors := authors; doc_categories := categories;
                  doc_articles := articles |}
  | _ => None
  end.

Definition load (text : string) : option Document :=
  ts ← scan Outside text; parse_document ts.

Definition codec : JSON := {| json_dump := dump; json_load := load |}.
End Codec.

(** * Specification vocabulary *)

(** ** Documents *)

(** The membership tests of [add_article], as functions of the records. *)
Definition known_email (email : string) (records : list AuthorRec) : bool :=
  existsb (fun a => String.eqb (a_email a) email) records.

Definition known_name (name : string) (records : list CategoryRec) : bool :=
  existsb (fun c => String.eqb (c_name c) name) records.

(** What one [add_article] call does to the document, given the name of the
    resolved author and the formatted timestamp. *)
Definition document_after (author_name email category_name title content stamp : string)
    (d : Document) : Document :=
  {| doc_authors :=
       if known_email email (doc_authors d) then doc_authors d
       else doc_authors d ++ [{| a_name := author_name; a_email := email |}];
     doc_categories :=
       if known_name category_name (doc_categories d) then doc_categories d
       else doc_categories d ++ [{| c_name := category_name |}];
     doc_articles :=
       doc_articles d ++
         [{| r_title := title; r_content := content; r_author := email;
             r_category := category_name; r_published_at := stamp |}] |}.

Definition emails (d : Document) : list string := a_email <$> doc_authors d.
Definition names (d : Document) : list string := c_name <$> doc_categories d.

(** Every article record names an author record and a category record of
    the same document. *)
Definition referential_integrity (d : Document) : Prop :=
  Forall (fun a => r_author a ∈ emails d /\ r_category a ∈ names d) (doc_articles d).

(** No two author records share an email, no two category records a name. *)
Definition unique_keys (d : Document) : Prop :=
  NoDup (emails d) /\ NoDup (names d).

(** The specification's [getArticle]: a 0-based positional lookup, [None]
    standing for NotFound when the index is out of [[0, len)]. *)
Definition getArticle (index : Z) (d : Document) : option ArticleRec :=
  if decide (0 <= index < Z.of_nat (length (doc_articles d)))%Z
  then doc_articles d !! Z.to_nat index
  else None.


(** ** The representation invariant *)

(** Every key of a dictionary leads to a live object that carries the key:
    the representation invariant of [CatalogManager], one dictionary at a
    time and for the manager. *)
Definition authors_ok (authors : gmap string loc) (r : Runtime) : Prop :=
  forall email l, authors !! email = Some l ->
    exists o, author_objs r !! l = Some o /\ author_email o = email.

Definition categories_ok (categories : gmap string loc) (r : Runtime) : Prop :=
  forall name l, categories !! name = Some l ->
    exists o, category_objs r !! l = Some o /\ cat_name o = name.

Definition mapping_ok (m : CatalogManager.state) : Prop :=
  authors_ok (CatalogManager.authors (CatalogManager.self m)) (CatalogManager.rt m) /\
  categories_ok (CatalogManager.categories (CatalogManager.self m)) (CatalogManager.rt m).

(** The objects of [r] are still there in [r'], with their identity fields. *)
Definition heap_extends (r r' : Runtime) : Prop :=
  (forall l o, author_objs r !! l = Some o ->
     exists o', author_objs r' !! l = Some o' /\
       author_name o' = author_name o /\ author_email o' = author_email o) /\
  (forall l o, category_objs r !! l = Some o ->
     exists o', category_objs r' !! l = Some o' /\ cat_name o' = cat_name o).

(** A computation that leaves the fields of the manager alone. *)
Definition keeps_self {A} (c : M CatalogManager.state A) : Prop :=
  forall m, CatalogManager.self (c m).1 = CatalogManager.self m.

(** ** One call of [add_article] *)

(** The name of the author object that [email] resolves to: the stored one
    for a known email, the supplied one otherwise. *)
Definition resolved_name (name email : string) (m : CatalogManager.state) : string :=
  match CatalogManager.authors (CatalogManager.self m) !! email with
  | Some l =>
      match author_objs (CatalogManager.rt m) !! l with
      | Some o => author_name o
      | None => name
      end
  | None => name
  end.

(** The dictionaries after resolving a key. *)
Definition resolved (key : string) (fresh : loc) (d : gmap string loc) : gmap string loc :=
  match d !! key with
  | Some _ => d
  | None => <[key := fresh]> d
  end.

(** The second half of [add_article], from the construction of the article
    on, as a computation of its own: the proofs reason about it once, for
    whichever way the two entities were resolved. *)
Definition record_article `{JSON} (title content : string) (now : datetime)
    (author category : loc) : M CatalogManager.state loc :=
  article ← CatalogManager.lift
    (ArticleFactory.create_article title content author category now);
  author_records ← gets (fun m => doc_authors (CatalogManager.data (CatalogManager.self m)));
  known_author ← CatalogManager.lift (CatalogManager.any_email author_records author);
  _ ← when (negb known_author)
        (n ← CatalogManager.lift (Author.name author);
         e ← CatalogManager.lift (Author.email author);
         modify (CatalogManager.append_author {| a_name := n; a_email := e |}));
  category_records ←
    gets (fun m => doc_categories (CatalogManager.data (CatalogManager.self m)));
  known_category ← CatalogManager.lift (CatalogManager.any_name category_records category);
  _ ← when (negb known_category)
        (n ← CatalogManager.lift (Category.name category);
         modify (CatalogManager.append_category {| c_name := n |}));
  title' ← CatalogManager.lift (Article.title article);
  content' ← CatalogManager.lift (Article.content article);
  email' ← CatalogManager.lift (Author.email author);
  name' ← CatalogManager.lift (Category.name category);
  published ← CatalogManager.lift (Article.published_at article);
  stamp ← match published with
          | Some d => mret (strftime d)
          | None => raise AttributeError
          end;
  _ ← modify (CatalogManager.append_article
                {| r_title := title'; r_content := content'; r_author := email';
                   r_category := name'; r_published_at := stamp |});
  _ ← CatalogManager.save;
  mret article.

(** The state after [ArticleFactory.create_article]: one more article
    object, already published, and one more back-reference in its author and
    in its category. *)
Definition created (title content : string) (author category : loc) (now : datetime)
    (ao : AuthorObj) (co : CategoryObj) (r : Runtime) : Runtime :=
  {| author_objs :=
       <[author := {| author_name := author_name ao; author_email := author_email ao;
                      author_articles := author_articles ao ++ [length (article_objs r)] |}]>
         (author_objs r);
     category_objs :=
       <[category := {| cat_name := cat_name co;
                        cat_articles :=
                          cat_articles co ++ [length (article_objs r)] |}]>
         (category_objs r);
     article_objs :=
       article_objs r ++
         [{| article_title := title; article_content := content;
             article_author := author; article_category := category;
             article_published_at := Some now |}];
     disk := disk r; stdout := stdout r |}.

(** The manager once the article is recorded in memory, before [save]. *)
Definition recorded (title content : string) (author category : loc) (now : datetime)
    (ao : AuthorObj) (co : CategoryObj) (m : CatalogManager.state) : CatalogManager.state :=
  {| CatalogManager.rt :=
       created title content author category now ao co (CatalogManager.rt m);
     CatalogManager.self :=
       {| CatalogManager.filepath := CatalogManager.filepath (CatalogManager.self m);
          CatalogManager.data :=
            document_after (author_name ao) (author_email ao) (cat_name co)
              title content (strftime now) (CatalogManager.data (CatalogManager.self m));
          CatalogManager.authors := CatalogManager.authors (CatalogManager.self m);
          CatalogManager.categories := CatalogManager.categories (CatalogManager.self m) |} |}.

(** ** Runs of the manager *)

(** The manager right after construction, when the constructor returns. *)
Definition start `{JSON} (filepath : string) (r : Runtime) : option CatalogManager.state :=
  match CatalogManager.__init__ filepath r with
  | (r', Ok s) => Some {| CatalogManager.rt := r'; CatalogManager.self := s |}
  | (_, Raise _) => None
  end.

(** A call of [add_article]: its five arguments and the clock reading. *)
Record call := {
  call_name : string;
  call_email : string;
  call_category : string;
  call_title : string;
  call_content : string;
  call_now : datetime
}.

Definition run_call `{JSON} (c : call) : M CatalogManager.state loc :=
  CatalogManager.add_article (call_name c) (call_email c) (call_category c)
    (call_title c) (call_content c) (call_now c).

(** A sequence of calls, each of which must succeed for the next to run. *)
Fixpoint run_calls `{JSON} (cs : list call) : M CatalogManager.state (list loc) :=
  match cs with
  | [] => mret []
  | c :: cs' => a ← run_call c; l ← run_calls cs'; mret (a :: l)
  end.

(** The article record a call appends. *)
Definition record_of (c : call) : ArticleRec :=
  {| r_title := call_title c; r_content := call_content c;
     r_author := call_email c; r_category := call_category c;
     r_published_at := strftime (call_now c) |}.

(** The states a manager goes through under [add_article] calls, whether
    their [save] succeeds or not. *)
Inductive reachable `{JSON} (m0 : CatalogManager.state) : CatalogManager.state -> Prop :=
  | reachable_start : reachable m0 m0
  | reachable_call m c : reachable m0 m -> reachable m0 (run_call c m).1.

(** The public operations of [CatalogManager]. *)
Inductive operation :=
  | OpLoad
  | OpSave
  | OpAddArticle (c : call)
  | OpShowCatalog
  | OpListArticles
  | OpShowArticle (index : Z).

Definition perform `{JSON} (op : operation) (m : CatalogManager.state)
  : CatalogManager.state :=
  match op with
  | OpLoad =>
      (CatalogManager.lift
         (CatalogManager.load (CatalogManager.filepath (CatalogManager.self m))) m).1
  | OpSave => (CatalogManager.save m).1
  | OpAddArticle c => (run_call c m).1
  | OpShowCatalog => (CatalogManager.show_catalog m).1
  | OpListArticles => (CatalogManager.list_articles m).1
  | OpShowArticle index => (CatalogManager.show_article index m).1
  end.

(** The state of the terminal after printing [lines]. *)
Definition printed (lines : list string) (m : CatalogManager.state) : CatalogManager.state :=
  {| CatalogManager.rt :=
       set_stdout (stdout (CatalogManager.rt m) ++ lines) (CatalogManager.rt m);
     CatalogManager.self := CatalogManager.self m |}.

(** Repeated resolution of one email under several names. *)
Fixpoint get_or_create_author_each (names : list string) (email : string)
    (authors : gmap string loc) : M Runtime (list loc * gmap string loc) :=
  match names with
  | [] => mret ([], authors)
  | name :: rest =>
      '(a, authors1) ← EntityFactory.get_or_create_author name email authors;
      '(l, authors2) ← get_or_create_author_each rest email authors1;
      mret (a :: l, authors2)
  end.

(** ** Concrete environments, used to run the program *)

Definition empty_runtime : Runtime :=
  {| author_objs := []; category_objs := []; article_objs := [];
     disk := {| files := ∅; readonly := ∅ |}; stdout := [] |}.

Definition morning : datetime :=
  {| year := 2024; month := 1; day := 2; hour := 3; minute := 4; second := 5;
     microsecond := 678 |}.

Definition hello_call : call :=
  {| call_name := "Ana"; call_email := "ana@x.com"; call_category := "Tech";
     call_title := "Hello"; call_content := "World"; call_now := morning |}.

Definition second_call : call :=
  {| call_name := "Ana"; call_email := "ana@x.com"; call_category := "Tech";
     call_title := "Second"; call_content := "Post"; call_now := morning |}.

Definition hello_record : ArticleRec :=
  {| r_title := "Hello"; r_content := "World"; r_author := "ana@x.com";
     r_category := "Tech"; r_published_at := "2024-01-02 03:04:05" |}.

Definition hello_document : Document :=
  {| doc_authors := [{| a_name := "Ana"; a_email := "ana@x.com" |}];
     doc_categories := [{| c_name := "Tech" |}];
     doc_articles := [hello_record] |}.

(** A disk that holds [hello_document] in [database.json]. *)
Definition hello_runtime : Runtime :=
  {| author_objs := []; category_objs := []; article_objs := [];
     disk := {| files := {[ "database.json" := Codec.dump hello_document ]};
                readonly := ∅ |};
     stdout := [] |}.

(** The same disk with the file write-protected. *)
Definition protected_runtime : Runtime :=
  {| author_objs := []; category_objs := []; article_objs := [];
     disk := {| files := {[ "database.json" := Codec.dump hello_document ]};
                readonly := {[ "database.json" ]} |};
     stdout := [] |}.

(** A disk whose [database.json] is not JSON. *)
Definition garbled_runtime : Runtime :=
  {| author_objs := []; category_objs := []; article_objs := [];
     disk := {| files := {[ "database.json" := "{ oops" ]}; readonly := ∅ |};
     stdout := [] |}.

(** The manager constructed on [hello_runtime]. *)
Definition hello_manager : CatalogManager.state :=
  {| CatalogManager.rt :=
       {| author_objs := [{| author_name := "Ana"; author_email := "ana@x.com";
                             author_articles := [] |}];
          category_objs := [{| cat_name := "Tech"; cat_articles := [] |}];
          article_objs := [];
          disk := disk hello_runtime; stdout := [] |};
     CatalogManager.self :=
       {| CatalogManager.filepath := "database.json";
          CatalogManager.data := hello_document;
          CatalogManager.authors := {[ "ana@x.com" := 0 ]};
          CatalogManager.categories := {[ "Tech" := 0 ]} |} |}.

(** The manager constructed on [empty_runtime]. *)
Definition fresh_manager : CatalogManager.state :=
  {| CatalogManager.rt := empty_runtime;
     CatalogManager.self :=
       {| CatalogManager.filepath := "database.json";
          CatalogManager.data := CatalogManager.empty_document;
          CatalogManager.authors := ∅;
          CatalogManager.categories := ∅ |} |}.

(** The manager constructed on [protected_runtime]. *)
Definition protected_manager : CatalogManager.state :=
  {| CatalogManager.rt :=
       {| author_objs := [{| author_name := "Ana"; author_email := "ana@x.com";
                             author_articles := [] |}];
          category_objs := [{| cat_name := "Tech"; cat_articles := [] |}];
          article_objs := [];
          disk := disk protected_runtime; stdout := [] |};
     CatalogManager.self :=
       {| CatalogManager.filepath := "database.json";
          CatalogManager.data := hello_document;
          CatalogManager.authors := {[ "ana@x.com" := 0 ]};
          CatalogManager.categories := {[ "Tech" := 0 ]} |} |}.

(** ** The tokens of a printed document *)

(** Scanned from between two tokens, [text] yields the tokens [ts] and ends
    between two tokens. *)
Definition scans (text : string) (ts : list Codec.token) : Prop :=
  forall rest,
    Codec.scan Codec.Outside (text +:+ rest) = (ts ++.) <$> Codec.scan Codec.Outside rest.

(** The token list of each printed piece. *)
Definition field_tokens (key : string) (value : list Codec.token) : list Codec.token :=
  [Codec.Str key; Codec.Colon] ++ value.

Fixpoint join_tokens (items : list (list Codec.token)) : list Codec.token :=
  match items with
  | [] => []
  | [x] => x
  | x :: rest => x ++ [Codec.Comma] ++ join_tokens rest
  end.

Definition list_tokens (items : list (list Codec.token)) : list Codec.token :=
  match items with
  | [] => [Codec.LBracket; Codec.RBracket]
  | _ => [Codec.LBracket] ++ join_tokens items ++ [Codec.RBracket]
  end.

Definition author_tokens (a : AuthorRec) : list Codec.token :=
  [Codec.LBrace] ++ field_tokens "name" [Codec.Str (a_name a)] ++ [Codec.Comma] ++
  field_tokens "email" [Codec.Str (a_email a)] ++ [Codec.RBrace].

Definition category_tokens (c : CategoryRec) : list Codec.token :=
  [Codec.LBrace] ++ field_tokens "name" [Codec.Str (c_name c)] ++ [Codec.RBrace].

Definition article_tokens (a : ArticleRec) : list Codec.token :=
  [Codec.LBrace] ++ field_tokens "title" [Codec.Str (r_title a)] ++ [Codec.Comma] ++
  field_tokens "content" [Codec.Str (r_content a)] ++ [Codec.Comma] ++
  field_tokens "author" [Codec.Str (r_author a)] ++ [Codec.Comma] ++
  field_tokens "category" [Codec.Str (r_category a)] ++ [Codec.Comma] ++
  field_tokens "published_at" [Codec.Str (r_published_at a)] ++ [Codec.RBrace].

Definition document_tokens (d : Document) : list Codec.token :=
  [Codec.LBrace] ++
  field_tokens "authors" (list_tokens (author_tokens <$> doc_authors d)) ++ [Codec.Comma] ++
  field_tokens "categories" (list_tokens (category_tokens <$> doc_categories d)) ++ [Codec.Comma] ++
  field_tokens "articles" (list_tokens (article_tokens <$> doc_articles d)) ++ [Codec.RBrace].

(** ** The heap, the dictionaries and the catalog listing *)

(** The heap after [EntityFactory.get_or_create_author]: one more author
    object when the email is not yet a key. *)
Definition author_resolved (name email : string) (authors : gmap string loc)
    (r : Runtime) : Runtime :=
  match authors !! email with
  | Some _ => r
  | None =>
      set_author_objs
        (author_objs r ++
           [{| author_name := name; author_email := email; author_articles := [] |}]) r
  end.

Definition category_resolved (name : string) (categories : gmap string loc)
    (r : Runtime) : Runtime :=
  match categories !! name with
  | Some _ => r
  | None =>
      set_category_objs
        (category_objs r ++ [{| cat_name := name; cat_articles := [] |}]) r
  end.

(** The reference a key resolves to: the stored one, or the fresh one. *)
Definition resolved_ref (key : string) (fresh : loc) (d : gmap string loc) : loc :=
  match d !! key with
  | Some l => l
  | None => fresh
  end.

(** The manager after the first half of [add_article]: both entities
    resolved, nothing recorded yet. *)
Definition entities_resolved (name email category_name : string) (m : CatalogManager.state)
  : CatalogManager.state :=
  {| CatalogManager.rt :=
       category_resolved category_name (CatalogManager.categories (CatalogManager.self m))
         (author_resolved name email (CatalogManager.authors (CatalogManager.self m))
            (CatalogManager.rt m));
     CatalogManager.self :=
       {| CatalogManager.filepath := CatalogManager.filepath (CatalogManager.self m);
          CatalogManager.data := CatalogManager.data (CatalogManager.self m);
          CatalogManager.authors :=
            resolved email (length (author_objs (CatalogManager.rt m)))
              (CatalogManager.authors (CatalogManager.self m));
          CatalogManager.categories :=
            resolved category_name (length (category_objs (CatalogManager.rt m)))
              (CatalogManager.categories (CatalogManager.self m)) |} |}.

(** The name the constructor gives the author stored under [email]: that of
    the last record with this email. *)
Definition last_name (email : string) (records : list AuthorRec) : option string :=
  a_name <$> last (filter (fun a => a_email a = email) records).

(** The author and category objects the constructor allocates, one per
    record. *)
Definition author_of_record (a : AuthorRec) : AuthorObj :=
  {| author_name := a_name a; author_email := a_email a; author_articles := [] |}.

Definition category_of_record (c : CategoryRec) : CategoryObj :=
  {| cat_name := c_name c; cat_articles := [] |}.

(** The keys of the two dictionaries are the keys of the document. *)
Definition keys_in_sync (m : CatalogManager.state) : Prop :=
  dom (CatalogManager.authors (CatalogManager.self m)) =
    (list_to_set (emails (CatalogManager.data (CatalogManager.self m))) : gset string) /\
  dom (CatalogManager.categories (CatalogManager.self m)) =
    (list_to_set (names (CatalogManager.data (CatalogManager.self m))) : gset string).

(** Every author record carries the name of the object its email resolves
    to. *)
Definition names_agree (m : CatalogManager.state) : Prop :=
  forall a, a ∈ doc_authors (CatalogManager.data (CatalogManager.self m)) ->
    exists l o,
      CatalogManager.authors (CatalogManager.self m) !! a_email a = Some l /\
      author_objs (CatalogManager.rt m) !! l = Some o /\
      author_name o = a_name a.

(** The back-references are exact: an article is listed by its author and by
    its category, and an author or a category lists only its own articles. *)
Definition back_references_exact (r : Runtime) : Prop :=
  (forall l o, article_objs r !! l = Some o ->
     exists ao co,
       author_objs r !! article_author o = Some ao /\ l ∈ author_articles ao /\
       category_objs r !! article_category o = Some co /\ l ∈ cat_articles co) /\
  (forall a ao l, author_objs r !! a = Some ao -> l ∈ author_articles ao ->
     exists o, article_objs r !! l = Some o /\ article_author o = a) /\
  (forall c co l, category_objs r !! c = Some co -> l ∈ cat_articles co ->
     exists o, article_objs r !! l = Some o /\ article_category o = c).

(** Repeated resolution of one category name. *)
Fixpoint get_or_create_category_each (n : nat) (name : string)
    (categories : gmap string loc) : M Runtime (list loc * gmap string loc) :=
  match n with
  | 0 => mret ([], categories)
  | S n' =>
      '(c, categories1) ← EntityFactory.get_or_create_category name categories;
      '(l, categories2) ← get_or_create_category_each n' name categories1;
      mret (c :: l, categories2)
  end.

(** What [show_catalog] prints for a document. *)
Definition author_line (a : AuthorRec) : string :=
  "- " +:+ a_name a +:+ " (" +:+ a_email a +:+ ")".

Definition category_line (c : CategoryRec) : string := "- " +:+ c_name c.

Definition article_line (a : ArticleRec) : string :=
  "- '" +:+ r_title a +:+ "' por " +:+ r_author a +:+ " em " +:+ r_category a +:+
  " (" +:+ r_published_at a +:+ ")".

Definition catalog_lines (d : Document) : list string :=
  [nl +:+ "=== CATÁLOGO ==="; nl +:+ "🧠 Autores:"] ++
  (author_line <$> doc_authors d) ++
  [nl +:+ "📁 Categorias:"] ++
  (category_line <$> doc_categories d) ++
  [nl +:+ "📝 Artigos:"] ++
  (article_line <$> doc_articles d).

(** A new process on the same disk: no object yet, nothing printed. *)
Definition reboot (r : Runtime) : Runtime :=
  {| author_objs := []; category_objs := []; article_objs := [];
     disk := disk r; stdout := [] |}.

(** A document that holds one email under two names. *)
Definition duplicate_document : Document :=
  {| doc_authors := [{| a_name := "Ana"; a_email := "ana@x.com" |};
                     {| a_name := "Bia"; a_email := "ana@x.com" |}];
     doc_categories := [{| c_name := "Tech" |}];
     doc_articles := [] |}.

Definition duplicate_runtime : Runtime :=
  {| author_objs := []; category_objs := []; article_objs := [];
     disk := {| files := {[ "database.json" := Codec.dump duplicate_document ]};
                readonly := ∅ |};
     stdout := [] |}.

(** The manager constructed on [duplicate_runtime]. *)
Definition duplicate_manager : CatalogManager.state :=
  {| CatalogManager.rt :=
       {| author_objs := [{| author_name := "Ana"; author_email := "ana@x.com";
                             author_articles := [] |};
                          {| author_name := "Bia"; author_email := "ana@x.com";
                             author_articles := [] |}];
          category_objs := [{| cat_name := "Tech"; cat_articles := [] |}];
          article_objs := [];
          disk := disk duplicate_runtime; stdout := [] |};
     CatalogManager.self :=
       {| CatalogManager.filepath := "database.json";
          CatalogManager.data := duplicate_document;
          CatalogManager.authors := {[ "ana@x.com" := 1 ]};
          CatalogManager.categories := {[ "Tech" := 0 ]} |} |}.

(** A later reading of the clock than [morning]. *)
Definition noon : datetime :=
  {| year := 2024; month := 1; day := 2; hour := 12; minute := 0; second := 0;
     microsecond := 0 |}.

(** The call of [add_article] with the given arguments. *)
Definition call_of (name email category_name title content : string) (now : datetime)
  : call :=
  {| call_name := name; call_email := email; call_category := category_name;
     call_title := title; call_content := content; call_now := now |}.

(** * Properties *)

(** ** Running computations *)

Ltac unfold_monad :=
  unfold mbind, mret, M_bind, M_ret, gets, modify, raise, when in *.

Lemma bind_ok {S A B} (c : M S A) (k : A -> M S B) (s s' : S) (a : A) :
  c s = (s', Ok a) -> (c ≫= k) s = k a s'.
Proof. intros Hc. unfold_monad. by rewrite Hc. Qed.

Lemma bind_raise {S A B} (c : M S A) (k : A -> M S B) (s s' : S) (e : exn) :
  c s = (s', Raise e) -> (c ≫= k) s = (s', Raise e).
Proof. intros Hc. unfold_monad. by rewrite Hc. Qed.

Lemma insert_snoc {A} (l : list A) (x y : A) :
  <[length l := y]> (l ++ [x]) = l ++ [y].
Proof. rewrite insert_app_r_alt by lia. by rewrite Nat.sub_diag. Qed.

Lemma lookup_snoc {A} (l : list A) (x : A) :
  (l ++ [x]) !! length l = Some x.
Proof. rewrite lookup_app_r by lia. by rewrite Nat.sub_diag. Qed.

(** ** The entity model *)

Lemma Author_init_run name email r :
  Author.__init__ name email r =
    (set_author_objs
       (author_objs r ++
          [{| author_name := name; author_email := email; author_articles := [] |}]) r,
     Ok (length (author_objs r))).
Proof. reflexivity. Qed.

Lemma Category_init_run name r :
  Category.__init__ name r =
    (set_category_objs
       (category_objs r ++ [{| cat_name := name; cat_articles := [] |}]) r,
     Ok (length (category_objs r))).
Proof. reflexivity. Qed.

Lemma Author_email_run author r o :
  author_objs r !! author = Some o ->
  Author.email author r = (r, Ok (author_email o)).
Proof. intros Ho. unfold Author.email, Author.read. unfold_monad. by rewrite Ho. Qed.

Lemma Author_name_run author r o :
  author_objs r !! author = Some o ->
  Author.name author r = (r, Ok (author_name o)).
Proof. intros Ho. unfold Author.name, Author.read. unfold_monad. by rewrite Ho. Qed.

Lemma Category_name_run category r o :
  category_objs r !! category = Some o ->
  Category.name category r = (r, Ok (cat_name o)).
Proof. intros Ho. unfold Category.name, Category.read. unfold_monad. by rewrite Ho. Qed.

Lemma Article_title_run article r o :
  article_objs r !! article = Some o ->
  Article.title article r = (r, Ok (article_title o)).
Proof. intros Ho. unfold Article.title, Article.read. unfold_monad. by rewrite Ho. Qed.

Lemma Article_content_run article r o :
  article_objs r !! article = Some o ->
  Article.content article r = (r, Ok (article_content o)).
Proof. intros Ho. unfold Article.content, Article.read. unfold_monad. by rewrite Ho. Qed.

Lemma Article_published_at_run article r o :
  article_objs r !! article = Some o ->
  Article.published_at article r = (r, Ok (article_published_at o)).
Proof.
  intros Ho. unfold Article.published_at, Article.read. unfold_monad. by rewrite Ho.
Qed.

Lemma create_article_run title content author category now r ao co :
  author_objs r !! author = Some ao ->
  category_objs r !! category = Some co ->
  ArticleFactory.create_article title content author category now r =
    (created title content author category now ao co r, Ok (length (article_objs r))).
Proof.
  intros Ha Hc.
  unfold ArticleFactory.create_article, Article.__init__, Article.publish,
    Author.add_article, Category.add_article, Author.read, Category.read, Article.read.
  unfold_monad. cbn. rewrite Ha. cbn. rewrite Hc. cbn.
  rewrite lookup_snoc. cbn. unfold set_article_objs, created. cbn.
  by rewrite insert_snoc.
Qed.

Lemma created_author_lookup title content author category now ao co r :
  author_objs r !! author = Some ao ->
  author_objs (created title content author category now ao co r) !! author =
    Some {| author_name := author_name ao; author_email := author_email ao;
            author_articles := author_articles ao ++ [length (article_objs r)] |}.
Proof.
  intros Ha. cbn. apply list_lookup_insert_eq. by eapply lookup_lt_Some.
Qed.

Lemma created_category_lookup title content author category now ao co r :
  category_objs r !! category = Some co ->
  category_objs (created title content author category now ao co r) !! category =
    Some {| cat_name := cat_name co;
            cat_articles := cat_articles co ++ [length (article_objs r)] |}.
Proof.
  intros Hc. cbn. apply list_lookup_insert_eq. by eapply lookup_lt_Some.
Qed.

Lemma created_article_lookup title content author category now ao co r :
  article_objs (created title content author category now ao co r)
    !! length (article_objs r) =
    Some {| article_title := title; article_content := content;
            article_author := author; article_category := category;
            article_published_at := Some now |}.
Proof. cbn. apply lookup_snoc. Qed.

(** ** The facade: one [add_article] call *)

Section AddArticle.
Context `{JSON}.
Import CatalogManager.

Lemma lift_run {A} (c : M Runtime A) m r' x :
  c (rt m) = (r', x) -> lift c m = ({| rt := r'; self := self m |}, x).
Proof. intros Hc. unfold lift. by rewrite Hc. Qed.

Lemma any_email_run records author r o :
  author_objs r !! author = Some o ->
  any_email records author r = (r, Ok (known_email (author_email o) records)).
Proof.
  intros Ho. induction records as [|a rest IH]; [done|].
  cbn. erewrite bind_ok by (by apply Author_email_run).
  destruct (String.eqb (a_email a) (author_email o)); [done|]. apply IH.
Qed.

Lemma any_name_run records category r o :
  category_objs r !! category = Some o ->
  any_name records category r = (r, Ok (known_name (cat_name o) records)).
Proof.
  intros Ho. induction records as [|a rest IH]; [done|].
  cbn. erewrite bind_ok by (by apply Category_name_run).
  destruct (String.eqb (c_name a) (cat_name o)); [done|]. apply IH.
Qed.

Lemma record_article_run title content now author category m ao co :
  author_objs (rt m) !! author = Some ao ->
  category_objs (rt m) !! category = Some co ->
  record_article title content now author category m =
    match save (recorded title content author category now ao co m) with
    | (m', Ok _) => (m', Ok (length (article_objs (rt m))))
    | (m', Raise e) => (m', Raise e)
    end.
Proof.
  intros Ha Hc. unfold record_article.
  pose proof (created_author_lookup title content author category now ao co (rt m) Ha)
    as Ha'.
  pose proof (created_category_lookup title content author category now ao co (rt m) Hc)
    as Hc'.
  pose proof (created_article_lookup title content author category now ao co (rt m))
    as Hart.
  erewrite bind_ok by (apply lift_run; by apply create_article_run).
  erewrite bind_ok by reflexivity.
  erewrite bind_ok by (apply lift_run, any_email_run; exact Ha').
  cbn [rt self author_email author_name].
  set (known_a := known_email (author_email ao) (doc_authors (data (self m)))).
  set (m1 := if known_a then
               {| rt := created title content author category now ao co (rt m);
                  self := self m |}
             else
               append_author {| a_name := author_name ao; a_email := author_email ao |}
                 {| rt := created title content author category now ao co (rt m);
                    self := self m |}).
  erewrite (bind_ok _ _ _ m1 tt).
  2:{ subst m1. destruct known_a; cbn [negb when]; [reflexivity|].
      erewrite bind_ok by (apply lift_run; cbn [rt]; by eapply Author_name_run).
      erewrite bind_ok by (apply lift_run; cbn [rt]; by eapply Author_email_run).
      reflexivity. }
  assert (rt m1 = created title content author category now ao co (rt m)) as Hrt
    by (subst m1; by destruct known_a).
  erewrite bind_ok by reflexivity.
  erewrite bind_ok by (apply lift_run, any_name_run; rewrite Hrt; exact Hc').
  cbn [cat_name].
  set (known_c := known_name (cat_name co) (doc_categories (data (self m1)))).
  set (m2 := if known_c then {| rt := rt m1; self := self m1 |}
             else append_category {| c_name := cat_name co |}
                    {| rt := rt m1; self := self m1 |}).
  erewrite (bind_ok _ _ _ m2 tt).
  2:{ subst m2. destruct known_c; cbn [negb when]; [reflexivity|].
      erewrite bind_ok
        by (apply lift_run; cbn [rt]; rewrite Hrt; by eapply Category_name_run).
      unfold modify, append_category, set_data. cbn. by rewrite Hrt. }
  assert (rt m2 = created title content author category now ao co (rt m)) as Hrt2
    by (subst m2; by destruct known_c).
  erewrite bind_ok by (apply lift_run; eapply Article_title_run; rewrite Hrt2; exact Hart).
  erewrite bind_ok by (apply lift_run; eapply Article_content_run; rewrite Hrt2; exact Hart).
  erewrite bind_ok by (apply lift_run; eapply Author_email_run; rewrite Hrt2; exact Ha').
  erewrite bind_ok by (apply lift_run; eapply Category_name_run; rewrite Hrt2; exact Hc').
  erewrite bind_ok by (apply lift_run; eapply Article_published_at_run; rewrite Hrt2; exact Hart).
  cbn [article_published_at article_title article_content author_email cat_name].
  erewrite bind_ok by reflexivity.
  erewrite bind_ok by reflexivity.
  match goal with
  | |- (save ≫= _) ?st = _ =>
      replace st with (recorded title content author category now ao co m)
  end.
  { unfold_monad. by destruct (save _) as [m' [[]|e]]. }
  assert (doc_categories (data (self m1)) = doc_categories (data (self m))) as Hcats
    by (subst m1; by destruct known_a).
  unfold recorded, document_after. rewrite <- Hcats.
  fold known_a known_c. clear Hrt Hrt2 Hcats.
  subst m2. clearbody known_c. subst m1. clearbody known_a.
  by destruct known_a, known_c.
Qed.

Lemma heap_extends_refl r : heap_extends r r.
Proof. split; intros l o Ho; eauto. Qed.

Lemma heap_extends_trans r1 r2 r3 :
  heap_extends r1 r2 -> heap_extends r2 r3 -> heap_extends r1 r3.
Proof.
  intros [Ha Hc] [Ha' Hc']. split.
  - intros l o Ho. destruct (Ha _ _ Ho) as (o1 & Ho1 & Hn & He).
    destruct (Ha' _ _ Ho1) as (o2 & Ho2 & Hn' & He'). exists o2. by rewrite Hn', He'.
  - intros l o Ho. destruct (Hc _ _ Ho) as (o1 & Ho1 & Hn).
    destruct (Hc' _ _ Ho1) as (o2 & Ho2 & Hn'). exists o2. by rewrite Hn'.
Qed.

Lemma authors_ok_extends authors r r' :
  authors_ok authors r -> heap_extends r r' -> authors_ok authors r'.
Proof.
  intros Hok [Hext _] email l Hl. destruct (Hok _ _ Hl) as (o & Ho & He).
  destruct (Hext _ _ Ho) as (o' & Ho' & _ & He'). exists o'. by rewrite He'.
Qed.

Lemma categories_ok_extends categories r r' :
  categories_ok categories r -> heap_extends r r' -> categories_ok categories r'.
Proof.
  intros Hok [_ Hext] name l Hl. destruct (Hok _ _ Hl) as (o & Ho & He).
  destruct (Hext _ _ Ho) as (o' & Ho' & He'). exists o'. by rewrite He'.
Qed.

(** Resolving an author: the reference returned is the one stored under
    [email] afterwards, and it denotes an object with that email. *)
Lemma get_or_create_author_run name email (authors : gmap string loc) r :
  authors_ok authors r ->
  exists la ao r',
    EntityFactory.get_or_create_author name email authors r =
      (r', Ok (la, resolved email (length (author_objs r)) authors)) /\
    resolved email (length (author_objs r)) authors !! email = Some la /\
    author_objs r' !! la = Some ao /\
    author_email ao = email /\
    author_name ao =
      match authors !! email with
      | Some l => match author_objs r !! l with Some o => author_name o | None => name end
      | None => name
      end /\
    authors_ok (resolved email (length (author_objs r)) authors) r' /\
    heap_extends r r' /\
    category_objs r' = category_objs r /\
    article_objs r' = article_objs r /\
    disk r' = disk r /\ stdout r' = stdout r.
Proof.
  intros Hok. unfold EntityFactory.get_or_create_author, resolved.
  destruct (authors !! email) as [l|] eqn:Hl.
  - destruct (Hok _ _ Hl) as (o & Ho & He).
    exists l, o, r. rewrite Ho. repeat split; eauto using heap_extends_refl.
    all: intros ? ? ?; eauto.
  - exists (length (author_objs r)),
      {| author_name := name; author_email := email; author_articles := [] |},
      (set_author_objs
         (author_objs r ++
            [{| author_name := name; author_email := email; author_articles := [] |}]) r).
    assert (heap_extends r
      (set_author_objs
         (author_objs r ++
            [{| author_name := name; author_email := email; author_articles := [] |}]) r))
      as Hext.
    { split; intros l o Ho; exists o; cbn; [|done].
      split; [|done]. by apply lookup_app_l_Some. }
    split_and!; try done.
    + by rewrite lookup_insert_eq.
    + cbn. apply lookup_snoc.
    + intros e l. rewrite lookup_insert. case_decide as Hd.
      * intros [= <-]. subst e. eexists. split; [apply lookup_snoc|done].
      * intros Hl'. by eapply authors_ok_extends.
Qed.

Lemma get_or_create_category_run name (categories : gmap string loc) r :
  categories_ok categories r ->
  exists lc co r',
    EntityFactory.get_or_create_category name categories r =
      (r', Ok (lc, resolved name (length (category_objs r)) categories)) /\
    resolved name (length (category_objs r)) categories !! name = Some lc /\
    category_objs r' !! lc = Some co /\
    cat_name co = name /\
    categories_ok (resolved name (length (category_objs r)) categories) r' /\
    heap_extends r r' /\
    author_objs r' = author_objs r /\
    article_objs r' = article_objs r /\
    disk r' = disk r /\ stdout r' = stdout r.
Proof.
  intros Hok. unfold EntityFactory.get_or_create_category, resolved.
  destruct (categories !! name) as [l|] eqn:Hl.
  - destruct (Hok _ _ Hl) as (o & Ho & He).
    exists l, o, r. repeat split; eauto using heap_extends_refl.
    all: intros ? ? ?; eauto.
  - exists (length (category_objs r)),
      {| cat_name := name; cat_articles := [] |},
      (set_category_objs
         (category_objs r ++ [{| cat_name := name; cat_articles := [] |}]) r).
    assert (heap_extends r
      (set_category_objs
         (category_objs r ++ [{| cat_name := name; cat_articles := [] |}]) r))
      as Hext.
    { split; intros l o Ho; exists o; cbn; [done|].
      split; [|done]. by apply lookup_app_l_Some. }
    split_and!; try done.
    + by rewrite lookup_insert_eq.
    + cbn. apply lookup_snoc.
    + intros e l. rewrite lookup_insert. case_decide as Hd.
      * intros [= <-]. subst e. eexists. split; [apply lookup_snoc|done].
      * intros Hl'. by eapply categories_ok_extends.
Qed.

Lemma heap_extends_created title content author category now ao co r :
  author_objs r !! author = Some ao ->
  category_objs r !! category = Some co ->
  heap_extends r (created title content author category now ao co r).
Proof.
  intros Ha Hc. split; intros l o Ho; cbn.
  - destruct (decide (l = author)) as [->|Hne].
    + rewrite list_lookup_insert_eq by (by eapply lookup_lt_Some).
      eexists. split; [done|]. cbn. by simplify_eq.
    + rewrite list_lookup_insert_ne by done. eauto.
  - destruct (decide (l = category)) as [->|Hne].
    + rewrite list_lookup_insert_eq by (by eapply lookup_lt_Some).
      eexists. split; [done|]. cbn. by simplify_eq.
    + rewrite list_lookup_insert_ne by done. eauto.
Qed.

Lemma save_run m :
  save m =
    if decide (filepath (self m) ∈ readonly (disk (rt m)))
    then ({| rt := rt m; self := self m |}, Raise PermissionError)
    else ({| rt := set_disk
                     {| files := <[filepath (self m) := json_dump (data (self m))]>
                                   (files (disk (rt m)));
                        readonly := readonly (disk (rt m)) |} (rt m);
             self := self m |}, Ok tt).
Proof. unfold save, lift, open_write. by case_decide. Qed.

(** One call of [add_article] on a manager that satisfies the
    representation invariant: the in-memory effect is [recorded] on the
    state [m1] reached by resolving the two entities, and the outcome is
    that of [save]. *)
Lemma add_article_run name email category_name title content now m :
  mapping_ok m ->
  exists la lc ao co m1,
    add_article name email category_name title content now m =
      match save (recorded title content la lc now ao co m1) with
      | (m', Ok _) => (m', Ok (length (article_objs (rt m))))
      | (m', Raise e) => (m', Raise e)
      end /\
    self m1 =
      {| filepath := filepath (self m); data := data (self m);
         authors := resolved email (length (author_objs (rt m))) (authors (self m));
         categories :=
           resolved category_name (length (category_objs (rt m))) (categories (self m)) |} /\
    author_objs (rt m1) !! la = Some ao /\
    author_email ao = email /\
    author_name ao = resolved_name name email m /\
    category_objs (rt m1) !! lc = Some co /\
    cat_name co = category_name /\
    mapping_ok m1 /\
    heap_extends (rt m) (rt m1) /\
    article_objs (rt m1) = article_objs (rt m) /\
    disk (rt m1) = disk (rt m) /\ stdout (rt m1) = stdout (rt m).
Proof.
  intros [Hao Hco].
  destruct (get_or_create_author_run name email _ _ Hao)
    as (la & ao & r1 & Hrun1 & Hla & Hao1 & Hemail & Hname & Hok1 & Hext1 &
        Hc1 & Hart1 & Hdisk1 & Hout1).
  assert (categories_ok (categories (self m)) r1) as Hco1
    by (by eapply categories_ok_extends).
  destruct (get_or_create_category_run category_name _ _ Hco1)
    as (lc & co & r2 & Hrun2 & Hlc & Hco2 & Hcname & Hok2 & Hext2 &
        Ha2 & Hart2 & Hdisk2 & Hout2).
  rewrite Hc1 in Hrun2, Hlc, Hok2.
  set (m1 := {| rt := r2;
                self := {| filepath := filepath (self m); data := data (self m);
                           authors := resolved email (length (author_objs (rt m)))
                                        (authors (self m));
                           categories := resolved category_name
                                           (length (category_objs (rt m)))
                                           (categories (self m)) |} |}).
  destruct (Hext2) as [Hext2a _]. destruct (Hext2a _ _ Hao1) as (ao' & Hao' & Hn' & He').
  exists la, lc, ao', co, m1. split_and!; try done.
  - unfold add_article.
    erewrite bind_ok by reflexivity.
    erewrite bind_ok by (apply lift_run; exact Hrun1).
    cbv beta iota.
    erewrite bind_ok by reflexivity.
    erewrite bind_ok by reflexivity.
    erewrite bind_ok by (apply lift_run; exact Hrun2).
    cbv beta iota.
    erewrite bind_ok by reflexivity.
    rewrite <- Hart1, <- Hart2.
    by apply (record_article_run title content now la lc m1 ao' co).
  - congruence.
  - rewrite Hn', Hname. unfold resolved_name. done.
  - split; cbn; [by eapply authors_ok_extends|done].
  - by eapply heap_extends_trans.
  - cbn. congruence.
  - cbn. congruence.
  - cbn. congruence.
Qed.

(** The effect of one call, in terms of the manager's fields. *)
Lemma add_article_effect name email category_name title content now m :
  mapping_ok m ->
  exists m' out,
    add_article name email category_name title content now m = (m', out) /\
    filepath (self m') = filepath (self m) /\
    data (self m') =
      document_after (resolved_name name email m) email category_name title content
        (strftime now) (data (self m)) /\
    authors (self m') = resolved email (length (author_objs (rt m))) (authors (self m)) /\
    categories (self m') =
      resolved category_name (length (category_objs (rt m))) (categories (self m)) /\
    mapping_ok m' /\
    heap_extends (rt m) (rt m') /\
    stdout (rt m') = stdout (rt m) /\
    readonly (disk (rt m')) = readonly (disk (rt m)) /\
    (if decide (filepath (self m) ∈ readonly (disk (rt m)))
     then out = Raise PermissionError /\ files (disk (rt m')) = files (disk (rt m))
     else out = Ok (length (article_objs (rt m))) /\
          files (disk (rt m')) =
            <[filepath (self m) := json_dump (data (self m'))]> (files (disk (rt m)))).
Proof.
  intros Hok.
  destruct (add_article_run name email category_name title content now m Hok)
    as (la & lc & ao & co & m1 & Hrun & Hself & Hao & Hemail & Hname & Hco & Hcname &
        [Hok1a Hok1c] & Hext & Hart & Hdisk & Hout).
  pose proof (heap_extends_created title content la lc now ao co (rt m1) Hao Hco) as Hext'.
  rewrite Hself in Hok1a, Hok1c. cbn in Hok1a, Hok1c.
  rewrite Hrun, save_run. cbn [recorded rt self filepath data created disk].
  rewrite Hself, Hdisk. cbn [filepath].
  case_decide; eexists _, _; (split; [reflexivity|]); cbn;
    rewrite ?Hself, ?Hemail, ?Hname, ?Hcname, ?Hout; cbn.
  all: split_and!; try done.
  all: try (by rewrite Hdisk).
  all: try (by eapply heap_extends_trans).
  all: try (by eapply authors_ok_extends).
  all: split; cbn; [by eapply authors_ok_extends|by eapply categories_ok_extends].
Qed.
End AddArticle.

(** ** The document under [add_article] *)

Lemma known_email_elem email records :
  known_email email records = true <-> email ∈ (a_email <$> records).
Proof.
  unfold known_email. rewrite existsb_exists, list_elem_of_fmap. split.
  - intros (a & Hin & Heq). apply String.eqb_eq in Heq.
    exists a. split; [done|]. by apply list_elem_of_In.
  - intros (a & -> & Hin). exists a. split; [by apply list_elem_of_In|].
    apply String.eqb_refl.
Qed.

Lemma known_name_elem name records :
  known_name name records = true <-> name ∈ (c_name <$> records).
Proof.
  unfold known_name. rewrite existsb_exists, list_elem_of_fmap. split.
  - intros (a & Hin & Heq). apply String.eqb_eq in Heq.
    exists a. split; [done|]. by apply list_elem_of_In.
  - intros (a & -> & Hin). exists a. split; [by apply list_elem_of_In|].
    apply String.eqb_refl.
Qed.

Section DocumentAfter.
Variables (author_name email category_name title content stamp : string).
Variable d : Document.

Let d' := document_after author_name email category_name title content stamp d.

Lemma document_after_email : email ∈ emails d'.
Proof.
  unfold emails, d', document_after. cbn.
  destruct (known_email email (doc_authors d)) eqn:Hk.
  - by apply known_email_elem.
  - rewrite fmap_app, elem_of_app. right. apply list_elem_of_here.
Qed.

Lemma document_after_name : category_name ∈ names d'.
Proof.
  unfold names, d', document_after. cbn.
  destruct (known_name category_name (doc_categories d)) eqn:Hk.
  - by apply known_name_elem.
  - rewrite fmap_app, elem_of_app. right. apply list_elem_of_here.
Qed.

Lemma document_after_emails_mono e : e ∈ emails d -> e ∈ emails d'.
Proof.
  unfold emails, d', document_after. cbn.
  destruct (known_email email (doc_authors d)); [done|].
  rewrite fmap_app, elem_of_app. by left.
Qed.

Lemma document_after_names_mono n : n ∈ names d -> n ∈ names d'.
Proof.
  unfold names, d', document_after. cbn.
  destruct (known_name category_name (doc_categories d)); [done|].
  rewrite fmap_app, elem_of_app. by left.
Qed.

Lemma document_after_articles :
  doc_articles d' =
    doc_articles d ++
      [{| r_title := title; r_content := content; r_author := email;
          r_category := category_name; r_published_at := stamp |}].
Proof. reflexivity. Qed.

Lemma document_after_integrity :
  referential_integrity d -> referential_integrity d'.
Proof.
  unfold referential_integrity. intros Hd.
  rewrite document_after_articles. apply Forall_app. split.
  - eapply Forall_impl; [exact Hd|]. cbn. intros a [Ha Hc].
    split; [by apply document_after_emails_mono|by apply document_after_names_mono].
  - apply Forall_singleton. cbn.
    split; [apply document_after_email|apply document_after_name].
Qed.

Lemma document_after_unique : unique_keys d -> unique_keys d'.
Proof.
  unfold unique_keys, emails, names, d', document_after. cbn. intros [Ha Hc]. split.
  - destruct (known_email email (doc_authors d)) eqn:Hk; [done|].
    rewrite fmap_app. apply NoDup_app. split_and!; [done| |apply NoDup_singleton].
    intros e He Heq%list_elem_of_singleton. cbn in Heq. subst e.
    apply known_email_elem in He. congruence.
  - destruct (known_name category_name (doc_categories d)) eqn:Hk; [done|].
    rewrite fmap_app. apply NoDup_app. split_and!; [done| |apply NoDup_singleton].
    intros e He Heq%list_elem_of_singleton. cbn in Heq. subst e.
    apply known_name_elem in He. congruence.
Qed.
End DocumentAfter.

(** ** Construction of the manager *)

Section Startup.
Context `{JSON}.
Import CatalogManager.

Lemma load_run fp r :
  load fp r =
    (r, match files (disk r) !! fp with
        | None => Ok empty_document
        | Some text =>
            match json_load text with
            | Some d => Ok d
            | None => Raise JSONDecodeError
            end
        end).
Proof.
  unfold load, try_except, open_read, json_load_file. unfold_monad.
  destruct (files (disk r) !! fp) as [text|]; [|done].
  by destruct (json_load text).
Qed.

Lemma authors_by_email_run records acc r :
  authors_ok acc r ->
  exists acc' r',
    authors_by_email records acc r = (r', Ok acc') /\
    authors_ok acc' r' /\ heap_extends r r' /\
    category_objs r' = category_objs r /\ article_objs r' = article_objs r /\
    disk r' = disk r /\ stdout r' = stdout r.
Proof.
  revert acc r. induction records as [|a rest IH]; intros acc r Hok.
  - exists acc, r. split_and!; try done. apply heap_extends_refl.
  - cbn [authors_by_email].
    set (r1 := set_author_objs
                 (author_objs r ++
                    [{| author_name := a_name a; author_email := a_email a;
                        author_articles := [] |}]) r).
    assert (heap_extends r r1) as Hext.
    { split; intros l o Ho; exists o; cbn; [|done].
      split; [|done]. by apply lookup_app_l_Some. }
    assert (authors_ok (<[a_email a := length (author_objs r)]> acc) r1) as Hok1.
    { intros e l. rewrite lookup_insert. case_decide as Hd.
      - intros [= <-]. subst e. eexists. split; [apply lookup_snoc|done].
      - intros Hl. by eapply authors_ok_extends. }
    destruct (IH _ _ Hok1) as (acc' & r' & Hrun & Hok' & Hext' & Hc & Hart & Hd & Ho).
    exists acc', r'. erewrite bind_ok by apply Author_init_run.
    split_and!; try done. by eapply heap_extends_trans.
Qed.

Lemma categories_by_name_run records acc r :
  categories_ok acc r ->
  exists acc' r',
    categories_by_name records acc r = (r', Ok acc') /\
    categories_ok acc' r' /\ heap_extends r r' /\
    author_objs r' = author_objs r /\ article_objs r' = article_objs r /\
    disk r' = disk r /\ stdout r' = stdout r.
Proof.
  revert acc r. induction records as [|c rest IH]; intros acc r Hok.
  - exists acc, r. split_and!; try done. apply heap_extends_refl.
  - cbn [categories_by_name].
    set (r1 := set_category_objs
                 (category_objs r ++ [{| cat_name := c_name c; cat_articles := [] |}]) r).
    assert (heap_extends r r1) as Hext.
    { split; intros l o Ho; exists o; cbn; [done|].
      split; [|done]. by apply lookup_app_l_Some. }
    assert (categories_ok (<[c_name c := length (category_objs r)]> acc) r1) as Hok1.
    { intros e l. rewrite lookup_insert. case_decide as Hd.
      - intros [= <-]. subst e. eexists. split; [apply lookup_snoc|done].
      - intros Hl. by eapply categories_ok_extends. }
    destruct (IH _ _ Hok1) as (acc' & r' & Hrun & Hok' & Hext' & Hc & Hart & Hd & Ho).
    exists acc', r'. erewrite bind_ok by apply Category_init_run.
    split_and!; try done. by eapply heap_extends_trans.
Qed.

(** The constructor succeeds exactly when [load] does, keeps the loaded
    document and establishes the representation invariant. *)
Lemma init_run fp r d :
  load fp r = (r, Ok d) ->
  exists r' s,
    __init__ fp r = (r', Ok s) /\
    filepath s = fp /\ data s = d /\
    mapping_ok {| rt := r'; self := s |} /\
    disk r' = disk r /\ stdout r' = stdout r.
Proof.
  intros Hload. unfold __init__.
  assert (authors_ok ∅ r) as Hempty by (intros e l; by rewrite lookup_empty).
  destruct (authors_by_email_run (doc_authors d) ∅ r Hempty)
    as (authors & r1 & Hrun1 & Hok1 & Hext1 & Hc1 & Hart1 & Hd1 & Ho1).
  assert (categories_ok ∅ r1) as Hempty' by (intros e l; by rewrite lookup_empty).
  destruct (categories_by_name_run (doc_categories d) ∅ r1 Hempty')
    as (categories & r2 & Hrun2 & Hok2 & Hext2 & Ha2 & Hart2 & Hd2 & Ho2).
  exists r2, {| filepath := fp; data := d; authors := authors; categories := categories |}.
  erewrite bind_ok by exact Hload.
  erewrite bind_ok by exact Hrun1.
  erewrite bind_ok by exact Hrun2.
  split_and!; try done; try congruence.
  split; cbn; [by eapply authors_ok_extends|done].
Qed.

Lemma init_inv fp r r' s :
  __init__ fp r = (r', Ok s) ->
  load fp r = (r, Ok (data s)) /\ filepath s = fp /\
  mapping_ok {| rt := r'; self := s |} /\ disk r' = disk r /\ stdout r' = stdout r.
Proof.
  intros Hinit. pose proof (load_run fp r) as Hload.
  destruct (files (disk r) !! fp) as [text|] eqn:Hfile.
  - destruct (json_load text) as [d|] eqn:Hjson.
    + destruct (init_run fp r d Hload) as (r2 & s2 & Hrun & Hfp & Hdata & Hok & Hd & Ho).
      rewrite Hrun in Hinit.
      assert (r2 = r' /\ s2 = s) as [-> ->] by (split; congruence).
      by rewrite Hdata.
    + unfold __init__ in Hinit. by erewrite bind_raise in Hinit by exact Hload.
  - destruct (init_run fp r _ Hload) as (r2 & s2 & Hrun & Hfp & Hdata & Hok & Hd & Ho).
    rewrite Hrun in Hinit.
      assert (r2 = r' /\ s2 = s) as [-> ->] by (split; congruence).
      by rewrite Hdata.
Qed.

Lemma init_fresh fp r :
  files (disk r) !! fp = None ->
  __init__ fp r =
    (r, Ok {| filepath := fp; data := empty_document; authors := ∅; categories := ∅ |}).
Proof.
  intros Hfile. unfold __init__.
  erewrite bind_ok by (rewrite load_run, Hfile; reflexivity).
  reflexivity.
Qed.

(** ** Invariants of the reachable states *)

Lemma reachable_inv (P : Document -> Prop) m0 m :
  (forall n e c t ct st d, P d -> P (document_after n e c t ct st d)) ->
  mapping_ok m0 -> P (data (self m0)) ->
  reachable m0 m ->
  mapping_ok m /\ P (data (self m)) /\ filepath (self m) = filepath (self m0) /\
  readonly (disk (rt m)) = readonly (disk (rt m0)).
Proof.
  intros Hstep Hok0 HP0 Hreach. induction Hreach as [|m c Hreach IH]; [done|].
  destruct IH as (Hok & HP & Hfp & Hro).
  destruct (add_article_effect (call_name c) (call_email c) (call_category c)
              (call_title c) (call_content c) (call_now c) m Hok)
    as (m' & out & Hrun & Hfp' & Hdata & _ & _ & Hok' & _ & _ & Hro' & _).
  unfold run_call. rewrite Hrun. cbn [fst].
  split_and!; [done| |congruence|congruence].
  rewrite Hdata. by apply Hstep.
Qed.

Lemma run_calls_reachable cs m0 m arts :
  run_calls cs m0 = (m, Ok arts) -> reachable m0 m.
Proof.
  revert m0 arts. induction cs as [|c cs IH]; intros m0 arts Hrun.
  - cbn in Hrun. unfold_monad. simplify_eq. constructor.
  - cbn [run_calls] in Hrun. unfold mbind, M_bind in Hrun.
    destruct (run_call c m0) as [m1 [a|e]] eqn:Hc; [|done].
    destruct (run_calls cs m1) as [m2 [l|e]] eqn:Hcs; [|done].
    unfold_monad. simplify_eq.
    pose proof (IH _ _ Hcs) as Hreach. clear IH Hcs.
    assert (m1 = (run_call c m0).1) as -> by (by rewrite Hc).
    clear Hc. induction Hreach; [apply reachable_call, reachable_start|].
    by apply reachable_call.
Qed.
End Startup.

(** ** The codec: decoding what was printed *)

Section CodecRoundTrip.
Import Codec.

Lemma append_cons c (s1 s2 : string) : String c s1 +:+ s2 = String c (s1 +:+ s2).
Proof. reflexivity. Qed.

Lemma append_nil_l (s : string) : "" +:+ s = s.
Proof. reflexivity. Qed.

Lemma append_nil_r (s : string) : s +:+ "" = s.
Proof. induction s as [|c s IH]; [done|]. by rewrite append_cons, IH. Qed.

Lemma append_assoc (s1 s2 s3 : string) : (s1 +:+ s2) +:+ s3 = s1 +:+ (s2 +:+ s3).
Proof. induction s1 as [|c s1 IH]; [done|]. by rewrite !append_cons, IH. Qed.

Lemma snoc_append acc c s : snoc acc c +:+ s = acc +:+ String c s.
Proof. unfold snoc. by rewrite append_assoc. Qed.

Lemma scan_escape_char acc c rest :
  scan (InString acc) (escape_char c +:+ rest) = scan (InString (snoc acc c)) rest.
Proof.
  destruct c as [[] [] [] [] [] [] [] []]; reflexivity.
Qed.

Lemma scan_escape acc s rest :
  scan (InString acc) (escape s +:+ String dq rest) =
    cons (Str (acc +:+ s)) <$> scan Outside rest.
Proof.
  revert acc. induction s as [|c s IH]; intros acc.
  - by rewrite append_nil_r.
  - cbn [escape]. rewrite append_assoc, scan_escape_char, IH. by rewrite snoc_append.
Qed.

Lemma scans_nil : scans "" [].
Proof. intros rest. rewrite append_nil_l. by destruct (scan Outside rest). Qed.

Lemma scans_app s1 s2 t1 t2 : scans s1 t1 -> scans s2 t2 -> scans (s1 +:+ s2) (t1 ++ t2).
Proof.
  intros H1 H2 rest. rewrite append_assoc, H1, H2.
  destruct (scan Outside rest); cbn; [|done]. by rewrite app_assoc.
Qed.

Lemma scans_string s : scans (dump_string s) [Str s].
Proof.
  intros rest. unfold dump_string. rewrite append_cons. 
  change (scan Outside (String dq ((escape s +:+ String dq "") +:+ rest)))
    with (scan (InString "") ((escape s +:+ String dq "") +:+ rest)).
  rewrite append_assoc, append_cons, append_nil_l, scan_escape.
  by destruct (scan Outside rest).
Qed.

Lemma scans_spaces n : scans (spaces n) [].
Proof.
  induction n as [|n IH]; [apply scans_nil|]. intros rest. cbn [spaces].
  rewrite append_cons. apply IH.
Qed.

Lemma scans_indent n : scans (indent n) [].
Proof.
  intros rest. unfold indent, nl. rewrite append_assoc, append_cons, append_nil_l.
  apply (scans_spaces (4 * n)).
Qed.

Lemma scans_open_brace : scans "{" [LBrace].
Proof. intros rest. reflexivity. Qed.
Lemma scans_close_brace : scans "}" [RBrace].
Proof. intros rest. reflexivity. Qed.
Lemma scans_open_bracket : scans "[" [LBracket].
Proof. intros rest. reflexivity. Qed.
Lemma scans_close_bracket : scans "]" [RBracket].
Proof. intros rest. reflexivity. Qed.
Lemma scans_comma : scans "," [Comma].
Proof. intros rest. reflexivity. Qed.
Lemma scans_colon : scans ": " [Colon].
Proof. intros rest. reflexivity. Qed.
Lemma scans_empty_list : scans "[]" [LBracket; RBracket].
Proof. apply (scans_app "[" "]" [LBracket] [RBracket] scans_open_bracket scans_close_bracket). Qed.

Lemma scans_blank_l s1 s2 t : scans s1 [] -> scans s2 t -> scans (s1 +:+ s2) t.
Proof. intros H1 H2. by apply (scans_app s1 s2 [] t). Qed.

Lemma scans_field level key value vt :
  scans value vt -> scans (dump_field level key value) (field_tokens key vt).
Proof.
  intros Hv. unfold dump_field, field_tokens.
  apply scans_blank_l; [apply scans_indent|].
  apply (scans_app _ _ [Str key] (Colon :: vt)); [apply scans_string|].
  by apply (scans_app _ _ [Colon] vt); [apply scans_colon|].
Qed.

Lemma scans_join level items toks :
  Forall2 scans items toks -> scans (join_items level items) (join_tokens toks).
Proof.
  induction 1 as [|x t items toks Hx Hrest IH]; [apply scans_nil|].
  destruct Hrest as [|y u items toks Hy Hrest].
  - cbn. by apply scans_blank_l; [apply scans_indent|].
  - cbn [join_items join_tokens].
    apply scans_blank_l; [apply scans_indent|].
    apply scans_app; [done|]. apply scans_app; [apply scans_comma|]. apply IH.
Qed.

Lemma scans_list level items toks :
  Forall2 scans items toks -> scans (dump_list level items) (list_tokens toks).
Proof.
  intros Hall. destruct Hall as [|x t items toks Hx Hrest]; [apply scans_empty_list|].
  unfold dump_list, list_tokens.
  apply scans_app; [apply scans_open_bracket|].
  apply scans_app; [apply scans_join; by constructor|].
  apply scans_blank_l; [apply scans_indent|apply scans_close_bracket].
Qed.

Lemma scans_author level a : scans (dump_author level a) (author_tokens a).
Proof.
  unfold dump_author, author_tokens.
  repeat first
    [ apply scans_blank_l; [apply scans_indent|]
    | apply scans_close_brace
    | apply scans_app;
        [first [apply scans_open_brace | apply scans_comma
               | apply scans_field, scans_string]|] ].
Qed.

Lemma scans_category level c : scans (dump_category level c) (category_tokens c).
Proof.
  unfold dump_category, category_tokens.
  repeat first
    [ apply scans_blank_l; [apply scans_indent|]
    | apply scans_close_brace
    | apply scans_app;
        [first [apply scans_open_brace | apply scans_comma
               | apply scans_field, scans_string]|] ].
Qed.

Lemma scans_article level a : scans (dump_article level a) (article_tokens a).
Proof.
  unfold dump_article, article_tokens.
  repeat first
    [ apply scans_blank_l; [apply scans_indent|]
    | apply scans_close_brace
    | apply scans_app;
        [first [apply scans_open_brace | apply scans_comma
               | apply scans_field, scans_string]|] ].
Qed.

Lemma Forall2_scans_fmap {A} (f : A -> string) (g : A -> list token) (l : list A) :
  (forall x, scans (f x) (g x)) -> Forall2 scans (f <$> l) (g <$> l).
Proof. intros Hfg. induction l; constructor; auto. Qed.

Lemma scans_document d : scans (dump d) (document_tokens d).
Proof.
  unfold dump, document_tokens.
  repeat first
    [ apply scans_blank_l; [apply scans_indent|]
    | apply scans_close_brace
    | apply scans_app;
        [first [apply scans_open_brace | apply scans_comma
               | apply scans_field, scans_list, Forall2_scans_fmap;
                 first [apply scans_author | apply scans_category | apply scans_article]]|] ].
Qed.

Lemma scan_dump d : scan Outside (dump d) = Some (document_tokens d).
Proof.
  pose proof (scans_document d "") as Hd. rewrite append_nil_r in Hd.
  rewrite Hd. cbn. by rewrite app_nil_r.
Qed.

Lemma parse_authors_join a l rest :
  parse_authors (join_tokens (author_tokens <$> a :: l) ++ RBracket :: rest) =
    Some (a :: l, rest).
Proof.
  revert a. induction l as [|b l IH]; intros [n e].
  - reflexivity.
  - change (join_tokens (author_tokens <$> {| a_name := n; a_email := e |} :: b :: l))
      with (author_tokens {| a_name := n; a_email := e |} ++ [Comma] ++
            join_tokens (author_tokens <$> b :: l)).
    rewrite <- !app_assoc. cbn -[join_tokens fmap]. by rewrite IH.
Qed.

Lemma parse_categories_join a l rest :
  parse_categories (join_tokens (category_tokens <$> a :: l) ++ RBracket :: rest) =
    Some (a :: l, rest).
Proof.
  revert a. induction l as [|b l IH]; intros [n].
  - reflexivity.
  - change (join_tokens (category_tokens <$> {| c_name := n |} :: b :: l))
      with (category_tokens {| c_name := n |} ++ [Comma] ++
            join_tokens (category_tokens <$> b :: l)).
    rewrite <- !app_assoc. cbn -[join_tokens fmap]. by rewrite IH.
Qed.

Lemma parse_articles_join a l rest :
  parse_articles (join_tokens (article_tokens <$> a :: l) ++ RBracket :: rest) =
    Some (a :: l, rest).
Proof.
  revert a. induction l as [|b l IH]; intros [t c au ca p].
  - reflexivity.
  - change (join_tokens (article_tokens <$>
              {| r_title := t; r_content := c; r_author := au; r_category := ca;
                 r_published_at := p |} :: b :: l))
      with (article_tokens {| r_title := t; r_content := c; r_author := au;
                              r_category := ca; r_published_at := p |} ++ [Comma] ++
            join_tokens (article_tokens <$> b :: l)).
    rewrite <- !app_assoc. cbn -[join_tokens fmap]. by rewrite IH.
Qed.

Lemma join_tokens_head {A} (tokens : A -> list token) (a : A) (l : list A) :
  (forall a, exists ts, tokens a = LBrace :: ts) ->
  exists ts, join_tokens (tokens <$> a :: l) = LBrace :: ts.
Proof.
  intros Hbrace. destruct (Hbrace a) as [ts Ha].
  destruct l as [|b l]; cbn [fmap list_fmap join_tokens]; rewrite Ha; eauto.
Qed.

Lemma parse_list_tokens {A} (items : list token -> option (list A * list token))
    (tokens : A -> list token) (l : list A) rest :
  (forall a, exists ts, tokens a = LBrace :: ts) ->
  (forall a l rest,
     items (join_tokens (tokens <$> a :: l) ++ RBracket :: rest) = Some (a :: l, rest)) ->
  parse_list items (list_tokens (tokens <$> l) ++ rest) = Some (l, rest).
Proof.
  intros Hbrace Hitems. destruct l as [|a l]; [done|].
  destruct (join_tokens_head tokens a l Hbrace) as [ts Hj].
  change (list_tokens (tokens <$> a :: l))
    with ([LBracket] ++ join_tokens (tokens <$> a :: l) ++ [RBracket]).
  pose proof (Hitems a l rest) as Hi.
  rewrite <- !app_assoc. rewrite Hj in Hi |- *. exact Hi.
Qed.

Lemma parse_document_tokens d : parse_document (document_tokens d) = Some d.
Proof.
  destruct d as [authors categories articles].
  unfold document_tokens, field_tokens, parse_document. cbn [doc_authors doc_categories doc_articles].
  cbn [app expect mbind option_bind parse_key String.eqb Ascii.eqb Bool.eqb].
  rewrite (parse_list_tokens parse_authors author_tokens);
    [|intros a; eexists; reflexivity|apply parse_authors_join].
  cbn [app expect mbind option_bind parse_key String.eqb Ascii.eqb Bool.eqb].
  rewrite (parse_list_tokens parse_categories category_tokens);
    [|intros a; eexists; reflexivity|apply parse_categories_join].
  cbn [app expect mbind option_bind parse_key String.eqb Ascii.eqb Bool.eqb].
  rewrite (parse_list_tokens parse_articles article_tokens);
    [|intros a; eexists; reflexivity|apply parse_articles_join].
  reflexivity.
Qed.

(** The codec decodes what it prints, for every document. *)
Lemma codec_load_dump d : load (dump d) = Some d.
Proof. unfold load. rewrite scan_dump. apply parse_document_tokens. Qed.
End CodecRoundTrip.

(** ** The facade: construction, queries and persistence *)

Section Facade.
Context `{JSON}.
Import CatalogManager.

Lemma start_inv fp r m0 :
  start fp r = Some m0 ->
  mapping_ok m0 /\ filepath (self m0) = fp /\ load fp r = (r, Ok (data (self m0))) /\
  disk (rt m0) = disk r /\ stdout (rt m0) = stdout r.
Proof.
  unfold start. destruct (__init__ fp r) as [r' [s|e]] eqn:Hinit; [|done].
  intros [= <-]. apply init_inv in Hinit.
  by destruct Hinit as (? & ? & ? & ? & ?).
Qed.

Lemma start_fresh fp r m0 :
  files (disk r) !! fp = None ->
  start fp r = Some m0 ->
  m0 = {| rt := r;
          self := {| filepath := fp; data := empty_document;
                     authors := ∅; categories := ∅ |} |}.
Proof. intros Hfile. unfold start. rewrite init_fresh by done. by intros [= <-]. Qed.

Lemma list_getitem_nat {A} (l : list A) (index : Z) :
  (0 <= index)%Z -> list_getitem l index = l !! Z.to_nat index.
Proof.
  intros Hpos. unfold list_getitem.
  destruct (index <? 0)%Z eqn:Hneg; [lia|]. by rewrite Hneg.
Qed.

Lemma list_getitem_last {A} (l : list A) : list_getitem l (-1) = last l.
Proof.
  unfold list_getitem. cbn. rewrite last_lookup.
  destruct l as [|x l]; [done|].
  destruct (-1 + Z.of_nat (length (x :: l)) <? 0)%Z eqn:Hneg.
  - apply Z.ltb_lt in Hneg. cbn [length] in Hneg. lia.
  - f_equal. cbn [length]. lia.
Qed.

Lemma show_article_in_range index m a :
  (0 <= index < Z.of_nat (length (doc_articles (data (self m)))))%Z ->
  doc_articles (data (self m)) !! Z.to_nat index = Some a ->
  show_article index m = (printed (render_article a) m, Ok tt).
Proof.
  intros Hrange Ha. unfold show_article.
  erewrite bind_ok by reflexivity.
  destruct (0 <=? index)%Z eqn:H0; [|lia].
  destruct (index <? Z.of_nat (length (doc_articles (data (self m)))))%Z eqn:H1; [|lia].
  cbn [andb]. rewrite list_getitem_nat, Ha by lia.
  unfold render_article, printed, for_each, lift, print. unfold_monad. cbn.
  unfold set_stdout. cbn. by rewrite <- app_assoc.
Qed.

Lemma show_article_out_of_range index m :
  ~ (0 <= index < Z.of_nat (length (doc_articles (data (self m)))))%Z ->
  show_article index m = (m, Ok tt).
Proof.
  intros Hrange. unfold show_article.
  erewrite bind_ok by reflexivity.
  destruct (0 <=? index)%Z eqn:H0; [|done].
  destruct (index <? Z.of_nat (length (doc_articles (data (self m)))))%Z eqn:H1; [lia|done].
Qed.

(** What [load] finds after a successful [save]: the decoding of the text
    printed for the saved document. *)
Lemma load_after_save m m' :
  save m = (m', Ok tt) ->
  self m' = self m /\
  load (filepath (self m)) (rt m') =
    (rt m', match json_load (json_dump (data (self m))) with
            | Some d => Ok d
            | None => Raise JSONDecodeError
            end).
Proof.
  intros Hsave. rewrite save_run in Hsave.
  case_decide as Hro; [done|]. injection Hsave as <-.
  split; [done|]. rewrite load_run. cbn [rt self set_disk disk files].
  by rewrite lookup_insert_eq.
Qed.


Lemma keeps_self_lift {A} (c : M Runtime A) : keeps_self (lift c).
Proof. intros m. unfold lift. by destruct (c (rt m)). Qed.

Lemma keeps_self_ret {A} (a : A) : keeps_self (mret a : M state A).
Proof. by intros m. Qed.

Lemma keeps_self_raise {A} (e : exn) : keeps_self (raise e : M state A).
Proof. by intros m. Qed.

Lemma keeps_self_gets {A} (f : state -> A) : keeps_self (gets f).
Proof. by intros m. Qed.

Lemma keeps_self_bind {A B} (c : M state A) (k : A -> M state B) :
  keeps_self c -> (forall a, keeps_self (k a)) -> keeps_self (c ≫= k).
Proof.
  intros Hc Hk m. unfold mbind, M_bind. specialize (Hc m).
  destruct (c m) as [m1 [a|e]]; cbn in *; [|done]. by rewrite Hk.
Qed.

Lemma keeps_self_for_each {A} (l : list A) (body : A -> M state unit) :
  (forall x, keeps_self (body x)) -> keeps_self (for_each l body).
Proof.
  intros Hbody. induction l as [|x l IH]; [apply keeps_self_ret|].
  cbn [for_each]. apply keeps_self_bind; [apply Hbody|by intros _].
Qed.

Lemma keeps_self_show_catalog : keeps_self show_catalog.
Proof.
  unfold show_catalog.
  repeat first
    [ apply keeps_self_bind; [|intros ?]
    | apply keeps_self_lift
    | apply keeps_self_gets
    | apply keeps_self_for_each; intros ? ].
Qed.

Lemma keeps_self_show_article index : keeps_self (show_article index).
Proof.
  unfold show_article. apply keeps_self_bind; [apply keeps_self_gets|]. intros articles.
  destruct (_ && _)%bool; [|apply keeps_self_ret].
  destruct (list_getitem articles index); [|apply keeps_self_raise].
  apply keeps_self_for_each. intros line. apply keeps_self_lift.
Qed.

Lemma keeps_self_save : keeps_self save.
Proof. intros m. unfold save. apply keeps_self_lift. Qed.

(** No public operation changes or removes an article record: the list
    before is a prefix of the list after. *)
Lemma perform_append_only op m :
  mapping_ok m ->
  doc_articles (data (self m)) `prefix_of` doc_articles (data (self (perform op m))).
Proof.
  intros Hok. destruct op as [| |c| | |index]; cbn [perform].
  - by rewrite keeps_self_lift.
  - by rewrite keeps_self_save.
  - destruct (add_article_effect (call_name c) (call_email c) (call_category c)
                (call_title c) (call_content c) (call_now c) m Hok)
      as (m' & out & Hrun & _ & Hdata & _).
    unfold run_call. rewrite Hrun. cbn [fst]. rewrite Hdata, document_after_articles.
    by apply prefix_app_r.
  - by rewrite keeps_self_show_catalog.
  - done.
  - by rewrite keeps_self_show_article.
Qed.

Lemma run_calls_app cs1 cs2 m0 m arts :
  run_calls (cs1 ++ cs2) m0 = (m, Ok arts) ->
  exists m1 arts1 arts2,
    run_calls cs1 m0 = (m1, Ok arts1) /\ run_calls cs2 m1 = (m, Ok arts2) /\
    arts = arts1 ++ arts2.
Proof.
  revert m0 arts. induction cs1 as [|c cs1 IH]; intros m0 arts Hrun.
  - exists m0, [], arts. by cbn in *.
  - cbn [app run_calls] in *. unfold mbind, M_bind in Hrun |- *.
    destruct (run_call c m0) as [m1 [a|e]]; [|done].
    destruct (run_calls (cs1 ++ cs2) m1) as [m2 [l|e]] eqn:Hrest; [|done].
    unfold_monad. injection Hrun as <- <-.
    destruct (IH _ _ Hrest) as (m1' & arts1 & arts2 & Hrun1 & Hrun2 & ->).
    exists m1', (a :: arts1), arts2. by rewrite Hrun1.
Qed.

Lemma run_calls_articles cs m0 m arts :
  mapping_ok m0 ->
  run_calls cs m0 = (m, Ok arts) ->
  doc_articles (data (self m)) = doc_articles (data (self m0)) ++ (record_of <$> cs) /\
  length arts = length cs /\ mapping_ok m.
Proof.
  revert m0 arts. induction cs as [|c cs IH]; intros m0 arts Hok Hrun.
  - cbn in Hrun. unfold_monad. injection Hrun as <- <-. by rewrite app_nil_r.
  - cbn [run_calls] in Hrun. unfold mbind, M_bind in Hrun.
    destruct (add_article_effect (call_name c) (call_email c) (call_category c)
                (call_title c) (call_content c) (call_now c) m0 Hok)
      as (m1 & out & Hcall & _ & Hdata & _ & _ & Hok1 & _).
    unfold run_call in Hrun. rewrite Hcall in Hrun. destruct out as [a|e]; [|done].
    destruct (run_calls cs m1) as [m2 [l|e]] eqn:Hrest; [|done].
    unfold_monad. injection Hrun as <- <-.
    destruct (IH _ _ Hok1 Hrest) as (Harts & Hlen & Hok2).
    rewrite Harts, Hdata, document_after_articles, <- app_assoc.
    split_and!; [done|by cbn; rewrite Hlen|done].
Qed.

(** Calls succeed as long as the file can be written. *)
Lemma run_calls_succeed cs m0 :
  mapping_ok m0 ->
  filepath (self m0) ∉ readonly (disk (rt m0)) ->
  exists m arts, run_calls cs m0 = (m, Ok arts).
Proof.
  revert m0. induction cs as [|c cs IH]; intros m0 Hok Hrw.
  - by exists m0, [].
  - destruct (add_article_effect (call_name c) (call_email c) (call_category c)
                (call_title c) (call_content c) (call_now c) m0 Hok)
      as (m1 & out & Hcall & Hfp & _ & _ & _ & Hok1 & _ & _ & Hro & Hout).
    rewrite decide_False in Hout by done. destruct Hout as [-> _].
    destruct (IH m1 Hok1) as (m & arts & Hrun); [by rewrite Hfp, Hro|].
    exists m, (length (article_objs (rt m0)) :: arts).
    cbn [run_calls]. unfold run_call at 1.
    erewrite bind_ok by exact Hcall. by erewrite bind_ok by exact Hrun.
Qed.
End Facade.

(** ** The facade: the state after [add_article], the constructor and
    the invariants of the reachable states *)

Section AddArticleTrace.
Context `{JSON}.
Import CatalogManager.

Lemma add_article_trace name email category_name title content now m :
  mapping_ok m ->
  let m1 := entities_resolved name email category_name m in
  let la := resolved_ref email (length (author_objs (rt m))) (authors (self m)) in
  let lc := resolved_ref category_name (length (category_objs (rt m))) (categories (self m)) in
  exists ao co,
    author_objs (rt m1) !! la = Some ao /\
    category_objs (rt m1) !! lc = Some co /\
    author_email ao = email /\
    author_name ao = resolved_name name email m /\
    cat_name co = category_name /\
    authors (self m1) !! email = Some la /\
    categories (self m1) !! category_name = Some lc /\
    add_article name email category_name title content now m =
      match save (recorded title content la lc now ao co m1) with
      | (m', Ok _) => (m', Ok (length (article_objs (rt m))))
      | (m', Raise e) => (m', Raise e)
      end.
Proof.
  intros [Hao Hco]. cbn zeta.
  unfold entities_resolved, resolved_ref, resolved, resolved_name,
    author_resolved, category_resolved.
  destruct (authors (self m) !! email) as [l|] eqn:Hl;
    destruct (categories (self m) !! category_name) as [l'|] eqn:Hl'.
  all: try (destruct (Hao _ _ Hl) as (ao & Hla & Hemail)).
  all: try (destruct (Hco _ _ Hl') as (co & Hlc & Hcname)).
  1: exists ao, co.
  2: exists ao, {| cat_name := category_name; cat_articles := [] |}.
  3: exists {| author_name := name; author_email := email; author_articles := [] |}, co.
  4: exists {| author_name := name; author_email := email; author_articles := [] |},
            {| cat_name := category_name; cat_articles := [] |}.
  all: cbn [rt self authors categories author_objs category_objs set_author_objs
            set_category_objs author_email author_name cat_name].
  all: rewrite ?Hla, ?lookup_snoc, ?lookup_insert_eq.
  all: split_and!; try done.
  all: unfold add_article.
  all: erewrite bind_ok by reflexivity.
  all: unfold EntityFactory.get_or_create_author, EntityFactory.get_or_create_category.
  all: rewrite Hl.
  all: erewrite bind_ok by reflexivity; cbv beta iota.
  all: erewrite bind_ok by reflexivity.
  all: erewrite bind_ok by reflexivity.
  all: cbn [set_authors self categories]; rewrite Hl'.
  all: erewrite bind_ok by reflexivity; cbv beta iota.
  all: erewrite bind_ok by reflexivity.
  all: etransitivity; [eapply record_article_run|reflexivity].
  all: cbn; rewrite ?lookup_snoc; done.
Qed.
End AddArticleTrace.

Section ConstructorLoops.
Context `{JSON}.
Import CatalogManager.

Lemma set_author_objs_id r : set_author_objs (author_objs r) r = r.
Proof. by destruct r. Qed.

Lemma set_category_objs_id r : set_category_objs (category_objs r) r = r.
Proof. by destruct r. Qed.

(** The constructor's first loop allocates one author object per record, in
    order. *)
Lemma authors_by_email_heap records acc r :
  (authors_by_email records acc r).1 =
    set_author_objs (author_objs r ++ (author_of_record <$> records)) r.
Proof.
  revert acc r. induction records as [|a rest IH]; intros acc r.
  - cbn. by rewrite app_nil_r, set_author_objs_id.
  - cbn [authors_by_email]. erewrite bind_ok by apply Author_init_run.
    rewrite IH. cbn [fmap list_fmap]. unfold set_author_objs. cbn.
    by rewrite <- app_assoc.
Qed.

Lemma categories_by_name_heap records acc r :
  (categories_by_name records acc r).1 =
    set_category_objs (category_objs r ++ (category_of_record <$> records)) r.
Proof.
  revert acc r. induction records as [|a rest IH]; intros acc r.
  - cbn. by rewrite app_nil_r, set_category_objs_id.
  - cbn [categories_by_name]. erewrite bind_ok by apply Category_init_run.
    rewrite IH. cbn [fmap list_fmap]. unfold set_category_objs. cbn.
    by rewrite <- app_assoc.
Qed.

Lemma authors_by_email_ok records acc r :
  exists acc', (authors_by_email records acc r).2 = Ok acc'.
Proof.
  revert acc r. induction records as [|a rest IH]; intros acc r; [by eexists|].
  cbn [authors_by_email]. erewrite bind_ok by apply Author_init_run. apply IH.
Qed.

Lemma categories_by_name_ok records acc r :
  exists acc', (categories_by_name records acc r).2 = Ok acc'.
Proof.
  revert acc r. induction records as [|a rest IH]; intros acc r; [by eexists|].
  cbn [categories_by_name]. erewrite bind_ok by apply Category_init_run. apply IH.
Qed.

Lemma authors_by_email_dom records acc r acc' :
  (authors_by_email records acc r).2 = Ok acc' ->
  dom acc' = dom acc ∪ (list_to_set (a_email <$> records) : gset string).
Proof.
  revert acc r. induction records as [|a rest IH]; intros acc r.
  - cbn. intros [= <-]. by rewrite (right_id_L ∅ (∪)).
  - cbn [authors_by_email]. erewrite bind_ok by apply Author_init_run.
    intros Hrun. rewrite (IH _ _ Hrun), dom_insert_L. cbn.
    by rewrite (comm_L (∪) {[a_email a]} (dom acc)), (assoc_L (∪)).
Qed.

Lemma categories_by_name_dom records acc r acc' :
  (categories_by_name records acc r).2 = Ok acc' ->
  dom acc' = dom acc ∪ (list_to_set (c_name <$> records) : gset string).
Proof.
  revert acc r. induction records as [|a rest IH]; intros acc r.
  - cbn. intros [= <-]. by rewrite (right_id_L ∅ (∪)).
  - cbn [categories_by_name]. erewrite bind_ok by apply Category_init_run.
    intros Hrun. rewrite (IH _ _ Hrun), dom_insert_L. cbn.
    by rewrite (comm_L (∪) {[c_name a]} (dom acc)), (assoc_L (∪)).
Qed.

Lemma last_name_cons email a rest :
  last_name email (a :: rest) =
    match last_name email rest with
    | Some n => Some n
    | None => if decide (a_email a = email) then Some (a_name a) else None
    end.
Proof.
  unfold last_name. rewrite filter_cons. case_decide as Hd.
  - rewrite last_cons. by destruct (last (filter _ rest)).
  - by destruct (last (filter _ rest)).
Qed.

Lemma last_name_None email records :
  email ∉ (a_email <$> records) -> last_name email records = None.
Proof.
  induction records as [|a rest IH]; [done|]. cbn [fmap list_fmap].
  intros Hnin. apply not_elem_of_cons in Hnin as [Hne Hnin].
  rewrite last_name_cons, IH by done. by rewrite decide_False.
Qed.

Lemma last_name_unique a records :
  NoDup (a_email <$> records) -> a ∈ records ->
  last_name (a_email a) records = Some (a_name a).
Proof.
  induction records as [|x rest IH]; intros Hnd Hin; [by apply elem_of_nil in Hin|].
  cbn [fmap list_fmap] in Hnd. apply NoDup_cons in Hnd as [Hx Hnd].
  rewrite last_name_cons. apply elem_of_cons in Hin as [->|Hin].
  - rewrite last_name_None by done. by rewrite decide_True.
  - by rewrite IH.
Qed.

(** The dictionary built by the constructor's first loop: the last record
    with an email decides the object stored under it. *)
Lemma authors_by_email_lookup records acc r acc' email :
  (authors_by_email records acc r).2 = Ok acc' ->
  match last_name email records with
  | Some n =>
      exists l, acc' !! email = Some l /\
        author_objs (authors_by_email records acc r).1 !! l =
          Some {| author_name := n; author_email := email; author_articles := [] |}
  | None => acc' !! email = acc !! email
  end.
Proof.
  revert acc r. induction records as [|a rest IH]; intros acc r.
  - cbn. by intros [= <-].
  - cbn [authors_by_email]. erewrite !bind_ok by apply Author_init_run.
    intros Hrun. specialize (IH _ _ Hrun). rewrite last_name_cons.
    destruct (last_name email rest) as [n|]; [done|].
    rewrite IH, lookup_insert. case_decide as Hd; [|done]. subst email.
    eexists. split; [done|]. rewrite authors_by_email_heap. cbn.
    apply lookup_app_l_Some, lookup_snoc.
Qed.
End ConstructorLoops.

Section AddArticleState.
Context `{JSON}.
Import CatalogManager.

Lemma resolved_disk name email category_name m :
  disk (rt (entities_resolved name email category_name m)) = disk (rt m) /\
  stdout (rt (entities_resolved name email category_name m)) = stdout (rt m) /\
  article_objs (rt (entities_resolved name email category_name m)) = article_objs (rt m).
Proof.
  unfold entities_resolved, category_resolved, author_resolved. cbn.
  by destruct (categories (self m) !! category_name), (authors (self m) !! email).
Qed.

(** The state [add_article] leaves, in closed form. *)
Lemma add_article_state name email category_name title content now m :
  mapping_ok m ->
  let m1 := entities_resolved name email category_name m in
  let la := resolved_ref email (length (author_objs (rt m))) (authors (self m)) in
  let lc := resolved_ref category_name (length (category_objs (rt m))) (categories (self m)) in
  exists ao co,
    author_objs (rt m1) !! la = Some ao /\
    category_objs (rt m1) !! lc = Some co /\
    author_email ao = email /\
    author_name ao = resolved_name name email m /\
    cat_name co = category_name /\
    authors (self m1) !! email = Some la /\
    categories (self m1) !! category_name = Some lc /\
    add_article name email category_name title content now m =
      let m2 := recorded title content la lc now ao co m1 in
      if decide (filepath (self m) ∈ readonly (disk (rt m)))
      then ({| rt := rt m2; self := self m2 |}, Raise PermissionError)
      else ({| rt := set_disk
                       {| files := <[filepath (self m) := json_dump (data (self m2))]>
                                     (files (disk (rt m)));
                          readonly := readonly (disk (rt m)) |} (rt m2);
               self := self m2 |}, Ok (length (article_objs (rt m)))).
Proof.
  intros Hok. cbn zeta.
  destruct (add_article_trace name email category_name title content now m Hok)
    as (ao & co & Hla & Hlc & Hemail & Hname & Hcname & Ha & Hc & Hrun).
  exists ao, co. split_and!; try done.
  rewrite Hrun, save_run.
  destruct (resolved_disk name email category_name m) as (Hdisk & _ & _).
  cbn [recorded rt self filepath data created disk]. rewrite Hdisk.
  cbn [entities_resolved self filepath]. by case_decide.
Qed.

(** The heap [add_article] leaves, whether or not [save] succeeds. *)
Lemma add_article_heap name email category_name title content now m :
  mapping_ok m ->
  let m' := (add_article name email category_name title content now m).1 in
  let m1 := entities_resolved name email category_name m in
  let la := resolved_ref email (length (author_objs (rt m))) (authors (self m)) in
  let lc := resolved_ref category_name (length (category_objs (rt m))) (categories (self m)) in
  exists ao co,
    author_objs (rt m1) !! la = Some ao /\
    category_objs (rt m1) !! lc = Some co /\
    author_email ao = email /\
    author_name ao = resolved_name name email m /\
    cat_name co = category_name /\
    authors (self m') !! email = Some la /\
    categories (self m') !! category_name = Some lc /\
    author_objs (rt m') = author_objs (created title content la lc now ao co (rt m1)) /\
    category_objs (rt m') = category_objs (created title content la lc now ao co (rt m1)) /\
    article_objs (rt m') = article_objs (created title content la lc now ao co (rt m1)).
Proof.
  intros Hok. cbn zeta.
  destruct (add_article_state name email category_name title content now m Hok)
    as (ao & co & Hao & Hco & Hemail & Hname & Hcname & Hla & Hlc & Hrun).
  exists ao, co. rewrite Hrun. cbn zeta.
  split_and!; try done; by case_decide.
Qed.

(** *** Back-references *)

Lemma back_references_heaps r r' :
  author_objs r' = author_objs r -> category_objs r' = category_objs r ->
  article_objs r' = article_objs r ->
  back_references_exact r -> back_references_exact r'.
Proof. unfold back_references_exact. intros -> -> ->. done. Qed.

Lemma back_references_author_resolved name email (authors : gmap string loc) r :
  back_references_exact r -> back_references_exact (author_resolved name email authors r).
Proof.
  unfold author_resolved. destruct (authors !! email); [done|].
  intros (Hfwd & Hauth & Hcat). split_and!; cbn.
  - intros l o Ho. destruct (Hfwd l o Ho) as (ao & co & Hao & Hl & Hco & Hl').
    exists ao, co. split_and!; try done. by apply lookup_app_l_Some.
  - intros a ao l Hao Hl. apply lookup_app_Some in Hao as [Hao|[_ Hao]]; [by eauto|].
    apply list_lookup_singleton_Some in Hao as [_ <-]. by apply elem_of_nil in Hl.
  - done.
Qed.

Lemma back_references_category_resolved name (categories : gmap string loc) r :
  back_references_exact r -> back_references_exact (category_resolved name categories r).
Proof.
  unfold category_resolved. destruct (categories !! name); [done|].
  intros (Hfwd & Hauth & Hcat). split_and!; cbn.
  - intros l o Ho. destruct (Hfwd l o Ho) as (ao & co & Hao & Hl & Hco & Hl').
    exists ao, co. split_and!; try done. by apply lookup_app_l_Some.
  - done.
  - intros a ao l Hao Hl. apply lookup_app_Some in Hao as [Hao|[_ Hao]]; [by eauto|].
    apply list_lookup_singleton_Some in Hao as [_ <-]. by apply elem_of_nil in Hl.
Qed.

Lemma back_references_created title content author category now ao co r :
  author_objs r !! author = Some ao ->
  category_objs r !! category = Some co ->
  back_references_exact r ->
  back_references_exact (created title content author category now ao co r).
Proof.
  intros Ha Hc (Hfwd & Hauth & Hcat).
  pose proof (lookup_lt_Some _ _ _ Ha) as Hlta.
  pose proof (lookup_lt_Some _ _ _ Hc) as Hltc.
  assert (forall a,
    exists ao', (<[author := {| author_name := author_name ao; author_email := author_email ao;
                   author_articles := author_articles ao ++ [length (article_objs r)] |}]>
       (author_objs r)) !! a = ao' /\
      (forall x, author_objs r !! a = Some x ->
         exists x', ao' = Some x' /\ forall l, l ∈ author_articles x -> l ∈ author_articles x'))
    as Hmono_a.
  { intros a. eexists. split; [done|]. intros x Hx.
    destruct (decide (a = author)) as [->|Hne].
    - rewrite list_lookup_insert_eq by done. eexists. split; [done|]. cbn.
      intros l Hl. assert (x = ao) as -> by congruence. apply elem_of_app. by left.
    - rewrite list_lookup_insert_ne by done. eauto. }
  assert (forall c,
    exists co', (<[category := {| cat_name := cat_name co;
                   cat_articles := cat_articles co ++ [length (article_objs r)] |}]>
       (category_objs r)) !! c = co' /\
      (forall x, category_objs r !! c = Some x ->
         exists x', co' = Some x' /\ forall l, l ∈ cat_articles x -> l ∈ cat_articles x'))
    as Hmono_c.
  { intros c. eexists. split; [done|]. intros x Hx.
    destruct (decide (c = category)) as [->|Hne].
    - rewrite list_lookup_insert_eq by done. eexists. split; [done|]. cbn.
      intros l Hl. assert (x = co) as -> by congruence. apply elem_of_app. by left.
    - rewrite list_lookup_insert_ne by done. eauto. }
  split_and!; cbn.
  - intros l o Ho. apply lookup_app_Some in Ho as [Ho|[Hge Ho]].
    + destruct (Hfwd l o Ho) as (ao0 & co0 & Hao0 & Hl & Hco0 & Hl').
      destruct (Hmono_a (article_author o)) as (? & <- & Hma).
      destruct (Hmono_c (article_category o)) as (? & <- & Hmc).
      destruct (Hma _ Hao0) as (x & -> & Hx). destruct (Hmc _ Hco0) as (y & -> & Hy).
      exists x, y. auto.
    + apply list_lookup_singleton_Some in Ho as [Hl <-]. cbn.
      assert (l = length (article_objs r)) as -> by lia.
      rewrite !list_lookup_insert_eq by done.
      eexists _, _. split_and!; try done; cbn; apply elem_of_app; right;
        apply list_elem_of_here.
  - intros a ao' l Hao' Hl. destruct (decide (a = author)) as [->|Hne].
    + rewrite list_lookup_insert_eq in Hao' by done. injection Hao' as <-. cbn in Hl.
      apply elem_of_app in Hl as [Hl|Hl].
      * destruct (Hauth _ _ _ Ha Hl) as (o & Ho & Hoa). exists o.
        split; [by apply lookup_app_l_Some|done].
      * apply list_elem_of_singleton in Hl as ->. eexists. split; [apply lookup_snoc|done].
    + rewrite list_lookup_insert_ne in Hao' by done.
      destruct (Hauth _ _ _ Hao' Hl) as (o & Ho & Hoa). exists o.
      split; [by apply lookup_app_l_Some|done].
  - intros c co' l Hco' Hl. destruct (decide (c = category)) as [->|Hne].
    + rewrite list_lookup_insert_eq in Hco' by done. injection Hco' as <-. cbn in Hl.
      apply elem_of_app in Hl as [Hl|Hl].
      * destruct (Hcat _ _ _ Hc Hl) as (o & Ho & Hoc). exists o.
        split; [by apply lookup_app_l_Some|done].
      * apply list_elem_of_singleton in Hl as ->. eexists. split; [apply lookup_snoc|done].
    + rewrite list_lookup_insert_ne in Hco' by done.
      destruct (Hcat _ _ _ Hco' Hl) as (o & Ho & Hoc). exists o.
      split; [by apply lookup_app_l_Some|done].
Qed.
End AddArticleState.

Section Invariants.
Context `{JSON}.
Import CatalogManager.

(** *** The constructor, loop by loop *)

Lemma init_shape fp r r' s :
  __init__ fp r = (r', Ok s) ->
  let r1 := set_author_objs (author_objs r ++ (author_of_record <$> doc_authors (data s))) r in
  authors_by_email (doc_authors (data s)) ∅ r = (r1, Ok (authors s)) /\
  categories_by_name (doc_categories (data s)) ∅ r1 = (r', Ok (categories s)) /\
  r' = set_category_objs
         (category_objs r ++ (category_of_record <$> doc_categories (data s))) r1.
Proof.
  intros Hinit. destruct (init_inv _ _ _ _ Hinit) as (Hload & _).
  unfold __init__ in Hinit. erewrite bind_ok in Hinit by exact Hload.
  pose proof (authors_by_email_heap (doc_authors (data s)) ∅ r) as Hheap1.
  destruct (authors_by_email_ok (doc_authors (data s)) ∅ r) as (a & Ha).
  destruct (authors_by_email (doc_authors (data s)) ∅ r) as [r1 out1] eqn:Hrun1.
  cbn in Hheap1, Ha. subst r1 out1.
  erewrite bind_ok in Hinit by exact Hrun1.
  pose proof (categories_by_name_heap (doc_categories (data s)) ∅
    (set_author_objs (author_objs r ++ (author_of_record <$> doc_authors (data s))) r))
    as Hheap2.
  destruct (categories_by_name_ok (doc_categories (data s)) ∅
    (set_author_objs (author_objs r ++ (author_of_record <$> doc_authors (data s))) r))
    as (c & Hc).
  destruct (categories_by_name (doc_categories (data s)) ∅ _) as [r2 out2] eqn:Hrun2.
  cbn [fst snd] in Hheap2, Hc. subst r2 out2.
  erewrite bind_ok in Hinit by exact Hrun2.
  unfold mret, M_ret in Hinit. injection Hinit as <- <-. cbn. done.
Qed.

(** *** The keys of the dictionaries and of the document *)

Lemma dom_resolved key fresh (d : gmap string loc) :
  dom (resolved key fresh d) = dom d ∪ ({[key]} : gset string).
Proof.
  unfold resolved. destruct (d !! key) as [l|] eqn:Hl.
  - symmetry. rewrite (comm_L (∪)). apply subseteq_union_1_L, singleton_subseteq_l.
    apply elem_of_dom. by rewrite Hl.
  - by rewrite dom_insert_L, (comm_L (∪)).
Qed.

Lemma emails_document_after n e c t ct st d :
  (list_to_set (emails (document_after n e c t ct st d)) : gset string) =
    list_to_set (emails d) ∪ {[e]}.
Proof.
  unfold emails, document_after. cbn.
  destruct (known_email e (doc_authors d)) eqn:Hk.
  - symmetry. rewrite (comm_L (∪)). apply subseteq_union_1_L, singleton_subseteq_l.
    apply elem_of_list_to_set. by apply known_email_elem.
  - rewrite fmap_app, list_to_set_app_L. cbn. by rewrite (right_id_L ∅ (∪)).
Qed.

Lemma names_document_after n e c t ct st d :
  (list_to_set (names (document_after n e c t ct st d)) : gset string) =
    list_to_set (names d) ∪ {[c]}.
Proof.
  unfold names, document_after. cbn.
  destruct (known_name c (doc_categories d)) eqn:Hk.
  - symmetry. rewrite (comm_L (∪)). apply subseteq_union_1_L, singleton_subseteq_l.
    apply elem_of_list_to_set. by apply known_name_elem.
  - rewrite fmap_app, list_to_set_app_L. cbn. by rewrite (right_id_L ∅ (∪)).
Qed.

Lemma keys_in_sync_init fp r m0 : start fp r = Some m0 -> keys_in_sync m0.
Proof.
  unfold start. destruct (__init__ fp r) as [r' [s|e]] eqn:Hinit; [|done].
  intros [= <-]. destruct (init_shape _ _ _ _ Hinit) as (Ha & Hc & _).
  split; cbn.
  - rewrite (authors_by_email_dom _ ∅ r) by (by rewrite Ha).
    by rewrite dom_empty_L, (left_id_L ∅ (∪)).
  - erewrite (categories_by_name_dom _ ∅) by (by rewrite Hc).
    by rewrite dom_empty_L, (left_id_L ∅ (∪)).
Qed.

Lemma keys_in_sync_call c m :
  mapping_ok m -> keys_in_sync m -> keys_in_sync (run_call c m).1.
Proof.
  intros Hok [Ha Hc].
  destruct (add_article_effect (call_name c) (call_email c) (call_category c)
              (call_title c) (call_content c) (call_now c) m Hok)
    as (m' & out & Hrun & _ & Hdata & Hauthors & Hcategories & _).
  unfold run_call. rewrite Hrun. cbn [fst]. split.
  - by rewrite Hauthors, Hdata, dom_resolved, emails_document_after, Ha.
  - by rewrite Hcategories, Hdata, dom_resolved, names_document_after, Hc.
Qed.

Lemma reachable_mapping_ok m0 m : mapping_ok m0 -> reachable m0 m -> mapping_ok m.
Proof.
  intros Hok Hreach.
  by destruct (reachable_inv (fun _ => True) m0 m) as (? & _).
Qed.

Lemma reachable_keys_in_sync m0 m :
  mapping_ok m0 -> keys_in_sync m0 -> reachable m0 m -> keys_in_sync m.
Proof.
  intros Hok Hkeys Hreach. induction Hreach as [|m c Hreach IH]; [done|].
  apply keys_in_sync_call; [by eapply reachable_mapping_ok|done].
Qed.

(** *** The names of the author records *)

Lemma names_agree_init fp r m0 :
  start fp r = Some m0 -> NoDup (emails (data (self m0))) -> names_agree m0.
Proof.
  unfold start. destruct (__init__ fp r) as [r' [s|e]] eqn:Hinit; [|done].
  intros [= <-]. cbn [self rt]. intros Hnd a Hin.
  destruct (init_shape _ _ _ _ Hinit) as (Ha & Hc & Hr').
  pose proof (authors_by_email_lookup (doc_authors (data s)) ∅ r (authors s) (a_email a))
    as Hlookup.
  rewrite Ha in Hlookup. specialize (Hlookup eq_refl).
  rewrite last_name_unique in Hlookup by done.
  destruct Hlookup as (l & Hl & Ho). cbn [fst] in Ho.
  eexists l, _. split_and!; [done| |].
  - rewrite Hr'. cbn. exact Ho.
  - done.
Qed.

Lemma names_agree_call c m :
  mapping_ok m -> names_agree m -> names_agree (run_call c m).1.
Proof.
  intros Hok Hagree.
  destruct (add_article_heap (call_name c) (call_email c) (call_category c)
              (call_title c) (call_content c) (call_now c) m Hok)
    as (ao & co & Hao & Hco & Hemail & Hname & Hcname & Hla & Hlc & Hheap & _).
  destruct (add_article_effect (call_name c) (call_email c) (call_category c)
              (call_title c) (call_content c) (call_now c) m Hok)
    as (m' & out & Hrun' & _ & Hdata & Hauthors & _ & _ & [Hext _] & _).
  unfold run_call. rewrite Hrun' in *. cbn [fst] in *. intros a Hin.
  assert (forall a0, a0 ∈ doc_authors (data (self m)) ->
    exists l o, authors (self m') !! a_email a0 = Some l /\
      author_objs (rt m') !! l = Some o /\ author_name o = a_name a0) as Hold.
  { intros a0 Ha0. destruct (Hagree a0 Ha0) as (l & o & Hl & Ho & Hn).
    destruct (Hext _ _ Ho) as (o' & Ho' & Hn' & _).
    exists l, o'. split_and!; [|done|congruence].
    rewrite Hauthors. unfold resolved.
    destruct (authors (self m) !! call_email c) eqn:Hc; [done|].
    rewrite lookup_insert_ne; [done|]. intros Heq. rewrite <- Heq in Hl. congruence. }
  rewrite Hdata in Hin. unfold document_after in Hin. cbn in Hin.
  destruct (known_email (call_email c) (doc_authors (data (self m)))); [by apply Hold|].
  apply elem_of_app in Hin as [Hin|Hin]; [by apply Hold|].
  apply list_elem_of_singleton in Hin as ->. cbn [a_email a_name].
  eexists _, _. split_and!; [exact Hla| |].
  - rewrite Hheap. by apply created_author_lookup.
  - done.
Qed.

Lemma reachable_names_agree m0 m :
  mapping_ok m0 -> names_agree m0 -> reachable m0 m -> names_agree m.
Proof.
  intros Hok Hagree Hreach. induction Hreach as [|m c Hreach IH]; [done|].
  apply names_agree_call; [by eapply reachable_mapping_ok|done].
Qed.

(** *** Back-references *)

Lemma back_references_init fp r m0 :
  start fp r = Some m0 -> back_references_exact r -> back_references_exact (rt m0).
Proof.
  unfold start. destruct (__init__ fp r) as [r' [s|e]] eqn:Hinit; [|done].
  intros [= <-]. cbn [rt]. destruct (init_shape _ _ _ _ Hinit) as (_ & _ & ->).
  intros (Hfwd & Hauth & Hcat). split_and!; cbn.
  - intros l o Ho. destruct (Hfwd l o Ho) as (ao & co & Hao & Hl & Hco & Hl').
    exists ao, co. split_and!; try done; by apply lookup_app_l_Some.
  - intros a ao l Hao Hl. apply lookup_app_Some in Hao as [Hao|[_ Hao]]; [by eauto|].
    apply list_lookup_fmap_Some in Hao as (x & -> & _). by apply elem_of_nil in Hl.
  - intros a ao l Hao Hl. apply lookup_app_Some in Hao as [Hao|[_ Hao]]; [by eauto|].
    apply list_lookup_fmap_Some in Hao as (x & -> & _). by apply elem_of_nil in Hl.
Qed.

Lemma back_references_call c m :
  mapping_ok m -> back_references_exact (rt m) -> back_references_exact (rt (run_call c m).1).
Proof.
  intros Hok Hrefs.
  destruct (add_article_heap (call_name c) (call_email c) (call_category c)
              (call_title c) (call_content c) (call_now c) m Hok)
    as (ao & co & Hao & Hco & _ & _ & _ & _ & _ & Ha & Hc & Hart).
  unfold run_call.
  eapply back_references_heaps; [exact Ha|exact Hc|exact Hart|].
  apply back_references_created; [done|done|].
  by apply back_references_category_resolved, back_references_author_resolved.
Qed.

Lemma reachable_back_references m0 m :
  mapping_ok m0 -> back_references_exact (rt m0) -> reachable m0 m ->
  back_references_exact (rt m).
Proof.
  intros Hok Hrefs Hreach. induction Hreach as [|m c Hreach IH]; [done|].
  apply back_references_call; [by eapply reachable_mapping_ok|done].
Qed.

(** *** Printing *)

Lemma print_run line m : lift (print line) m = (printed [line] m, Ok tt).
Proof. reflexivity. Qed.

Lemma printed_nil m : printed [] m = m.
Proof. unfold printed, set_stdout. rewrite app_nil_r. by destruct m as [[] ?]. Qed.

Lemma printed_app l1 l2 m : printed l2 (printed l1 m) = printed (l1 ++ l2) m.
Proof. unfold printed, set_stdout. cbn. by rewrite app_assoc. Qed.

Lemma for_each_print {A} (f : A -> string) (l : list A) m :
  for_each l (fun x => lift (print (f x))) m = (printed (f <$> l) m, Ok tt).
Proof.
  revert m. induction l as [|x l IH]; intros m.
  - cbn. by rewrite printed_nil.
  - cbn [for_each]. erewrite bind_ok by apply print_run.
    rewrite IH, printed_app. done.
Qed.
End Invariants.

Section ReachableStates.
Context `{JSON}.
Import CatalogManager.

Lemma resolved_author_objs name email category_name m :
  author_objs (rt (entities_resolved name email category_name m)) =
    match authors (self m) !! email with
    | Some _ => author_objs (rt m)
    | None =>
        author_objs (rt m) ++
          [{| author_name := name; author_email := email; author_articles := [] |}]
    end.
Proof.
  unfold entities_resolved, category_resolved, author_resolved. cbn.
  by destruct (categories (self m) !! category_name), (authors (self m) !! email).
Qed.

Lemma resolved_category_objs name email category_name m :
  category_objs (rt (entities_resolved name email category_name m)) =
    match categories (self m) !! category_name with
    | Some _ => category_objs (rt m)
    | None => category_objs (rt m) ++ [{| cat_name := category_name; cat_articles := [] |}]
    end.
Proof.
  unfold entities_resolved, category_resolved, author_resolved. cbn.
  by destruct (categories (self m) !! category_name), (authors (self m) !! email).
Qed.

Lemma reachable_call_of name email category_name title content now m0 m :
  reachable m0 m ->
  reachable m0 (add_article name email category_name title content now m).1.
Proof.
  intros Hreach.
  exact (reachable_call m0 m (call_of name email category_name title content now) Hreach).
Qed.

Lemma elem_of_emails_dom m email :
  keys_in_sync m ->
  email ∈ emails (data (self m)) <-> is_Some (authors (self m) !! email).
Proof.
  intros [Ha _]. rewrite <- elem_of_dom, Ha. symmetry. apply elem_of_list_to_set.
Qed.

Lemma elem_of_names_dom m name :
  keys_in_sync m ->
  name ∈ names (data (self m)) <-> is_Some (categories (self m) !! name).
Proof.
  intros [_ Hc]. rewrite <- elem_of_dom, Hc. symmetry. apply elem_of_list_to_set.
Qed.

(** *** Objects once allocated *)

Lemma reachable_heap m1 m2 :
  mapping_ok m1 -> reachable m1 m2 ->
  heap_extends (rt m1) (rt m2) /\
  (forall l o, article_objs (rt m1) !! l = Some o -> article_objs (rt m2) !! l = Some o).
Proof.
  intros Hok Hreach. induction Hreach as [|m c Hreach [IHext IHart]].
  - split; [apply heap_extends_refl|done].
  - pose proof (reachable_mapping_ok _ _ Hok Hreach) as Hokm.
    destruct (add_article_effect (call_name c) (call_email c) (call_category c)
                (call_title c) (call_content c) (call_now c) m Hokm)
      as (m' & out & Hrun & _ & _ & _ & _ & _ & Hext & _).
    destruct (add_article_heap (call_name c) (call_email c) (call_category c)
                (call_title c) (call_content c) (call_now c) m Hokm)
      as (ao & co & _ & _ & _ & _ & _ & _ & _ & _ & _ & Hart).
    destruct (resolved_disk (call_name c) (call_email c) (call_category c) m)
      as (_ & _ & Harts).
    unfold run_call. split.
    + eapply heap_extends_trans; [exact IHext|]. by rewrite Hrun.
    + intros l o Ho. rewrite Hart. unfold created. cbn [article_objs]. rewrite Harts.
      apply lookup_app_l_Some. by apply IHart.
Qed.
End ReachableStates.

(** * The claims *)

Section Claims.
Context `{JSON}.
Import CatalogManager.

(** C1. Referential integrity. A manager is constructed from a document
    whose article records all name existing author and category records.
    After every [add_article] call made from then on (whether or not its
    [save] succeeds), the article record appended last is the one of the
    call, its author email is among the emails of the author records, its
    category name is among the names of the category records, and every
    article record of the document still names existing records. *)
Theorem add_article_referential_integrity fp r0 m0 :
  start fp r0 = Some m0 ->
  referential_integrity (data (self m0)) ->
  forall m, reachable m0 m ->
  forall c,
    let d' := data (self (run_call c m).1) in
    last (doc_articles d') = Some (record_of c) /\
    r_author (record_of c) ∈ emails d' /\
    r_category (record_of c) ∈ names d' /\
    referential_integrity d'.
Proof.
  intros Hstart Hri m Hreach c.
  destruct (start_inv _ _ _ Hstart) as (Hok0 & _).
  destruct (reachable_inv referential_integrity m0 m) as (Hok & Hri' & _); try done.
  { intros. by apply document_after_integrity. }
  destruct (add_article_effect (call_name c) (call_email c) (call_category c)
              (call_title c) (call_content c) (call_now c) m Hok)
    as (m' & out & Hrun & _ & Hdata & _).
  unfold run_call. rewrite Hrun. cbn [fst]. cbn zeta. rewrite Hdata.
  split_and!.
  - rewrite document_after_articles. apply last_snoc.
  - apply document_after_email.
  - apply document_after_name.
  - by apply document_after_integrity.
Qed.

(** C2. Idempotent identity resolution. Two calls of
    [get_or_create_author] with one email and any two names return the
    same reference, the one stored under that email; the second call
    changes neither the dictionary nor the heap; over any number of such
    calls every reference returned is that same one and the dictionary
    grows by at most one entry; and when the email is already a key, the
    stored reference is returned and the heap, hence the name of the stored
    author, is untouched. *)
Theorem get_or_create_author_idempotent (authors : gmap string loc) r name1 name2 email :
  exists a authors1 r1,
    EntityFactory.get_or_create_author name1 email authors r = (r1, Ok (a, authors1)) /\
    EntityFactory.get_or_create_author name2 email authors1 r1 = (r1, Ok (a, authors1)) /\
    authors1 !! email = Some a /\
    (forall names, exists refs,
       get_or_create_author_each names email authors1 r1 = (r1, Ok (refs, authors1)) /\
       length refs = length names /\ Forall (eq a) refs) /\
    size authors <= size authors1 <= S (size authors) /\
    (forall a0, authors !! email = Some a0 -> a = a0 /\ authors1 = authors /\ r1 = r) /\
    (authors !! email = None ->
       author_objs r1 !! a =
         Some {| author_name := name1; author_email := email; author_articles := [] |}).
Proof.
  assert (forall a1 (d : gmap string loc) r1 name,
            d !! email = Some a1 ->
            EntityFactory.get_or_create_author name email d r1 = (r1, Ok (a1, d)))
    as Hknown.
  { intros a1 d r1 name Hd. unfold EntityFactory.get_or_create_author. by rewrite Hd. }
  assert (forall a1 (d : gmap string loc) r1 names,
            d !! email = Some a1 ->
            exists refs,
              get_or_create_author_each names email d r1 = (r1, Ok (refs, d)) /\
              length refs = length names /\ Forall (eq a1) refs) as Heach.
  { intros a1 d r1 names Hd. induction names as [|n ns (refs & Hrun & Hlen & Hall)].
    - by exists [].
    - exists (a1 :: refs). cbn [get_or_create_author_each].
      erewrite bind_ok by (by apply Hknown). cbv beta iota.
      erewrite bind_ok by exact Hrun. cbn.
      split_and!; [done|by rewrite Hlen|by constructor]. }
  destruct (authors !! email) as [a0|] eqn:Hlookup.
  - exists a0, authors, r. split_and!; eauto.
    + intros ? [= <-]. done.
    + done.
  - exists (length (author_objs r)), (<[email := length (author_objs r)]> authors),
      (set_author_objs
         (author_objs r ++
            [{| author_name := name1; author_email := email; author_articles := [] |}]) r).
    assert (<[email := length (author_objs r)]> authors !! email =
              Some (length (author_objs r))) as Hnew by apply lookup_insert_eq.
    split_and!; eauto.
    + unfold EntityFactory.get_or_create_author. by rewrite Hlookup.
    + rewrite map_size_insert_None by done. lia.
    + rewrite map_size_insert_None by done. lia.
    + done.
    + intros _. cbn. apply lookup_snoc.
Qed.

(** C3. Append-only. After [N] successful [add_article] calls on a
    manager constructed without a backing file, [list_articles] returns
    exactly the [N] records of the calls, in call order; the records present
    after any first [k] of the calls are the first [k] records of the final
    list, unchanged; and no public operation of the manager changes or
    removes a record: the list it finds is a prefix of the list it leaves. *)
Theorem add_article_append_only fp r0 m0 cs m arts :
  files (disk r0) !! fp = None ->
  start fp r0 = Some m0 ->
  run_calls cs m0 = (m, Ok arts) ->
  list_articles m = (m, Ok (record_of <$> cs)) /\
  length (record_of <$> cs) = length cs /\
  (forall k, exists mk artsk,
     run_calls (take k cs) m0 = (mk, Ok artsk) /\
     doc_articles (data (self mk)) = take k (doc_articles (data (self m)))) /\
  (forall op,
     doc_articles (data (self m)) `prefix_of` doc_articles (data (self (perform op m)))).
Proof.
  intros Hfile Hstart Hrun.
  destruct (start_inv _ _ _ Hstart) as (Hok0 & _).
  pose proof (start_fresh _ _ _ Hfile Hstart) as Hm0.
  assert (doc_articles (data (self m0)) = []) as Hnil by (by subst m0).
  destruct (run_calls_articles _ _ _ _ Hok0 Hrun) as (Harts & Hlen & Hok).
  rewrite Hnil in Harts. cbn [app] in Harts.
  split_and!.
  - unfold list_articles, gets. by rewrite Harts.
  - by rewrite length_fmap.
  - intros k. rewrite <- (take_drop k cs) in Hrun.
    destruct (run_calls_app _ _ _ _ _ Hrun) as (mk & artsk & arts2 & Hrunk & _ & _).
    exists mk, artsk. split; [done|].
    destruct (run_calls_articles _ _ _ _ Hok0 Hrunk) as (Hartsk & _ & _).
    rewrite Hnil in Hartsk. cbn [app] in Hartsk.
    by rewrite Hartsk, Harts, fmap_take.
  - intros op. by apply perform_append_only.
Qed.

(** C4. Unique keys. In every state reached from the empty document by
    [add_article] calls, no two author records share an email and no two
    category records share a name; a call appends an author record only
    when no record has its email, and a category record only when no
    record has its name. *)
Theorem add_article_unique_keys fp r0 m0 :
  files (disk r0) !! fp = None ->
  start fp r0 = Some m0 ->
  forall m, reachable m0 m ->
    unique_keys (data (self m)) /\
    forall c,
      let d := data (self m) in
      let d' := data (self (run_call c m).1) in
      (call_email c ∈ emails d -> doc_authors d' = doc_authors d) /\
      (call_email c ∉ emails d ->
         exists a, a_email a = call_email c /\ doc_authors d' = doc_authors d ++ [a]) /\
      (call_category c ∈ names d -> doc_categories d' = doc_categories d) /\
      (call_category c ∉ names d ->
         doc_categories d' = doc_categories d ++ [{| c_name := call_category c |}]).
Proof.
  intros Hfile Hstart m Hreach.
  destruct (start_inv _ _ _ Hstart) as (Hok0 & _).
  pose proof (start_fresh _ _ _ Hfile Hstart) as Hm0.
  destruct (reachable_inv unique_keys m0 m) as (Hok & Huniq & _); try done.
  { intros. by apply document_after_unique. }
  { subst m0. split; constructor. }
  split; [done|]. intros c.
  destruct (add_article_effect (call_name c) (call_email c) (call_category c)
              (call_title c) (call_content c) (call_now c) m Hok)
    as (m' & out & Hrun & _ & Hdata & _).
  unfold run_call. rewrite Hrun. cbn [fst]. cbn zeta. rewrite Hdata.
  unfold document_after, emails, names. cbn. split_and!.
  - intros Hin%known_email_elem. by rewrite Hin.
  - intros Hnin. destruct (known_email _ _) eqn:Hk.
    + by apply known_email_elem in Hk.
    + by eexists {| a_name := _; a_email := _ |}.
  - intros Hin%known_name_elem. by rewrite Hin.
  - intros Hnin. destruct (known_name _ _) eqn:Hk; [|done].
    by apply known_name_elem in Hk.
Qed.

(** C5. [load] returns the empty document when the backing file does not
    exist, the decoded document when the file exists and decodes, and
    raises [JSONDecodeError] when the file exists and does not decode; the
    constructor does not recover from that error either. *)
Theorem load_cases fp r :
  (files (disk r) !! fp = None -> load fp r = (r, Ok empty_document)) /\
  (forall text d,
     files (disk r) !! fp = Some text -> json_load text = Some d ->
     load fp r = (r, Ok d)) /\
  (forall text,
     files (disk r) !! fp = Some text -> json_load text = None ->
     load fp r = (r, Raise JSONDecodeError) /\
     __init__ fp r = (r, Raise JSONDecodeError)).
Proof.
  split_and!.
  - intros Hfile. by rewrite load_run, Hfile.
  - intros text d Hfile Hjson. by rewrite load_run, Hfile, Hjson.
  - intros text Hfile Hjson.
    assert (load fp r = (r, Raise JSONDecodeError)) as Hload
      by (by rewrite load_run, Hfile, Hjson).
    split; [done|]. unfold __init__. by erewrite bind_raise by exact Hload.
Qed.


(** C7. The scenario. On a manager constructed without a backing file,
    [add_article("Ana", "ana@x.com", "Tech", "Hello", "World")] leaves
    [list_articles] with exactly one record, which carries these values
    and the formatted clock reading of its creation; a second call for the
    same author and category leaves one author record, one category record
    and two article records. *)
Theorem scenario_two_articles fp r0 m0 now1 now2 :
  files (disk r0) !! fp = None ->
  start fp r0 = Some m0 ->
  let m1 := (add_article "Ana" "ana@x.com" "Tech" "Hello" "World" now1 m0).1 in
  let m2 := (add_article "Ana" "ana@x.com" "Tech" "Second" "Post" now2 m1).1 in
  (list_articles m1).2 =
    Ok [{| r_title := "Hello"; r_content := "World"; r_author := "ana@x.com";
           r_category := "Tech"; r_published_at := strftime now1 |}] /\
  data (self m2) =
    {| doc_authors := [{| a_name := "Ana"; a_email := "ana@x.com" |}];
       doc_categories := [{| c_name := "Tech" |}];
       doc_articles :=
         [{| r_title := "Hello"; r_content := "World"; r_author := "ana@x.com";
             r_category := "Tech"; r_published_at := strftime now1 |};
          {| r_title := "Second"; r_content := "Post"; r_author := "ana@x.com";
             r_category := "Tech"; r_published_at := strftime now2 |}] |} /\
  length (doc_authors (data (self m2))) = 1 /\
  length (doc_categories (data (self m2))) = 1 /\
  length (doc_articles (data (self m2))) = 2.
Proof.
  intros Hfile Hstart.
  destruct (start_inv _ _ _ Hstart) as (Hok0 & _).
  pose proof (start_fresh _ _ _ Hfile Hstart) as Hm0.
  destruct (add_article_effect "Ana" "ana@x.com" "Tech" "Hello" "World" now1 m0 Hok0)
    as (m1 & out1 & Hrun1 & _ & Hdata1 & _ & _ & Hok1 & _).
  destruct (add_article_effect "Ana" "ana@x.com" "Tech" "Second" "Post" now2 m1 Hok1)
    as (m2 & out2 & Hrun2 & _ & Hdata2 & _).
  rewrite Hrun1. cbn [fst]. rewrite Hrun2. cbn [fst]. cbn zeta.
  assert (resolved_name "Ana" "ana@x.com" m0 = "Ana") as Hname0.
  { subst m0. unfold resolved_name. cbn. by rewrite lookup_empty. }
  assert (data (self m1) =
            {| doc_authors := [{| a_name := "Ana"; a_email := "ana@x.com" |}];
               doc_categories := [{| c_name := "Tech" |}];
               doc_articles :=
                 [{| r_title := "Hello"; r_content := "World"; r_author := "ana@x.com";
                     r_category := "Tech"; r_published_at := strftime now1 |}] |})
    as Hd1.
  { rewrite Hdata1, Hname0. by subst m0. }
  assert (data (self m2) =
    {| doc_authors := [{| a_name := "Ana"; a_email := "ana@x.com" |}];
       doc_categories := [{| c_name := "Tech" |}];
       doc_articles :=
         [{| r_title := "Hello"; r_content := "World"; r_author := "ana@x.com";
             r_category := "Tech"; r_published_at := strftime now1 |};
          {| r_title := "Second"; r_content := "Post"; r_author := "ana@x.com";
             r_category := "Tech"; r_published_at := strftime now2 |}] |}) as Hd2.
  { rewrite Hdata2, Hd1. reflexivity. }
  split_and!.
  - unfold list_articles, gets. cbn. by rewrite Hd1.
  - done.
  - by rewrite Hd2.
  - by rewrite Hd2.
  - by rewrite Hd2.
Qed.


(** C9. No atomicity on a failed write. When the file cannot be written,
    [add_article] raises the error of [save], yet the document in memory
    already has the new article record as its last one and the two
    dictionaries already hold the email and the category name, while the
    disk is as it was. *)
Theorem add_article_save_failure fp r0 m0 m name email category_name title content now :
  start fp r0 = Some m0 ->
  reachable m0 m ->
  filepath (self m) ∈ readonly (disk (rt m)) ->
  exists m',
    add_article name email category_name title content now m =
      (m', Raise PermissionError) /\
    disk (rt m') = disk (rt m) /\
    doc_articles (data (self m')) =
      doc_articles (data (self m)) ++
        [{| r_title := title; r_content := content; r_author := email;
            r_category := category_name; r_published_at := strftime now |}] /\
    data (self m') <> data (self m) /\
    email ∈ emails (data (self m')) /\
    category_name ∈ names (data (self m')) /\
    is_Some (authors (self m') !! email) /\
    is_Some (categories (self m') !! category_name).
Proof.
  intros Hstart Hreach Hro.
  destruct (start_inv _ _ _ Hstart) as (Hok0 & _).
  destruct (reachable_inv (fun _ => True) m0 m) as (Hok & _); try done.
  destruct (add_article_effect name email category_name title content now m Hok)
    as (m' & out & Hrun & _ & Hdata & Hauthors & Hcategories & _ & _ & _ & Hro' & Hout).
  rewrite decide_True in Hout by done. destruct Hout as [-> Hfiles].
  exists m'. split_and!; try done.
  - destruct (disk (rt m')), (disk (rt m)). cbn in *. congruence.
  - by rewrite Hdata.
  - rewrite Hdata. intros Heq.
    apply (f_equal (fun d => length (doc_articles d))) in Heq.
    rewrite document_after_articles, length_app in Heq. cbn in Heq. lia.
  - rewrite Hdata. apply document_after_email.
  - rewrite Hdata. apply document_after_name.
  - rewrite Hauthors. unfold resolved.
    destruct (authors (self m) !! email) eqn:Hl; [by rewrite Hl|].
    rewrite lookup_insert_eq. eauto.
  - rewrite Hcategories. unfold resolved.
    destruct (categories (self m) !! category_name) eqn:Hl; [by rewrite Hl|].
    rewrite lookup_insert_eq. eauto.
Qed.

(** C10. A negative index selects nothing: [show_article] returns
    normally and leaves the manager, the heap, the disk and the terminal as
    they were, although indexing the article list with -1 would have picked
    its last record. In particular the choice 0 in the article menu, which
    becomes index -1, shows nothing. *)
Theorem show_article_negative_index index m :
  (index < 0)%Z ->
  show_article index m = (m, Ok tt) /\
  getArticle index (data (self m)) = None /\
  ReadArticleCommand.select (index + 1) m = (m, Ok tt) /\
  ReadArticleCommand.select 0 m = (m, Ok tt) /\
  list_getitem (doc_articles (data (self m))) (-1) = last (doc_articles (data (self m))).
Proof.
  intros Hneg.
  assert (forall i, (i < 0)%Z -> show_article i m = (m, Ok tt)) as Hshow.
  { intros i Hi. apply show_article_out_of_range. lia. }
  split_and!.
  - by apply Hshow.
  - unfold getArticle. rewrite decide_False; [done|lia].
  - unfold ReadArticleCommand.select, try_except. rewrite Hshow; [done|lia].
  - unfold ReadArticleCommand.select, try_except. rewrite Hshow; [done|lia].
  - apply list_getitem_last.
Qed.
End Claims.

(** * The claims on concrete disks

    Each statement below runs the program, with [Codec.codec] as the JSON
    library, on one of the concrete environments, through the corresponding
    theorem. *)

Section Runs.
Import CatalogManager.
Existing Instance Codec.codec.

Lemma start_hello : start "database.json" hello_runtime = Some hello_manager.
Proof. vm_compute. reflexivity. Qed.

Lemma start_fresh_manager : start "database.json" empty_runtime = Some fresh_manager.
Proof. vm_compute. reflexivity. Qed.

Lemma start_protected : start "database.json" protected_runtime = Some protected_manager.
Proof. vm_compute. reflexivity. Qed.

Lemma hello_document_integrity : referential_integrity hello_document.
Proof. apply Forall_singleton. split; apply list_elem_of_here. Qed.

Example strftime_morning : strftime morning = "2024-01-02 03:04:05".
Proof. reflexivity. Qed.

Example record_of_hello_call : record_of hello_call = hello_record.
Proof. reflexivity. Qed.

Lemma get_or_create_author_idempotent_run :
  EntityFactory.get_or_create_author "Bia" "ana@x.com" {[ "ana@x.com" := 0 ]}
    (rt hello_manager) =
    (rt hello_manager, Ok (0, {[ "ana@x.com" := 0 ]})).
Proof.
  destruct (get_or_create_author_idempotent {[ "ana@x.com" := 0 ]} (rt hello_manager)
              "Bia" "Ana" "ana@x.com")
    as (a & authors1 & r1 & Hfirst & _ & _ & _ & _ & Hknown & _).
  destruct (Hknown 0) as (-> & -> & ->); [reflexivity|exact Hfirst].
Defined.



Lemma add_article_referential_integrity_run :
  referential_integrity (data (self (run_call second_call hello_manager).1)).
Proof.
  destruct (add_article_referential_integrity "database.json" hello_runtime hello_manager
              start_hello hello_document_integrity hello_manager (reachable_start _)
              second_call) as (_ & _ & _ & Hri).
  exact Hri.
Defined.

Lemma add_article_unique_keys_run :
  unique_keys (data (self (run_call second_call (run_call hello_call fresh_manager).1).1)).
Proof.
  refine (proj1 (add_article_unique_keys "database.json" empty_runtime fresh_manager
                   _ start_fresh_manager _ _)).
  - reflexivity.
  - apply reachable_call, reachable_call, reachable_start.
Defined.

Lemma add_article_append_only_run :
  list_articles (run_calls [hello_call; second_call] fresh_manager).1 =
    ((run_calls [hello_call; second_call] fresh_manager).1,
     Ok [record_of hello_call; record_of second_call]).
Proof.
  refine (proj1 (add_article_append_only "database.json" empty_runtime fresh_manager
                   [hello_call; second_call] _ [0; 1] _ start_fresh_manager _)).
  - reflexivity.
  - vm_compute. reflexivity.
Defined.

Lemma load_cases_run :
  load "database.json" empty_runtime = (empty_runtime, Ok empty_document) /\
  load "database.json" hello_runtime = (hello_runtime, Ok hello_document) /\
  load "database.json" garbled_runtime = (garbled_runtime, Raise JSONDecodeError).
Proof.
  split_and!.
  - apply (load_cases "database.json" empty_runtime). reflexivity.
  - apply (proj1 (proj2 (load_cases "database.json" hello_runtime))
             (Codec.dump hello_document)); vm_compute; reflexivity.
  - apply (proj2 (proj2 (load_cases "database.json" garbled_runtime)) "{ oops");
      vm_compute; reflexivity.
Defined.

Lemma scenario_two_articles_run :
  data (self (run_call second_call (run_call hello_call fresh_manager).1).1) =
    {| doc_authors := [{| a_name := "Ana"; a_email := "ana@x.com" |}];
       doc_categories := [{| c_name := "Tech" |}];
       doc_articles :=
         [hello_record;
          {| r_title := "Second"; r_content := "Post"; r_author := "ana@x.com";
             r_category := "Tech"; r_published_at := "2024-01-02 03:04:05" |}] |}.
Proof.
  refine (proj1 (proj2 (scenario_two_articles "database.json" empty_runtime fresh_manager
                          morning morning _ start_fresh_manager))).
  reflexivity.
Defined.

(** With the codec of this file as the JSON library, [load] returns the saved
    document after every successful [save]. *)
Lemma codec_save_load m m' :
  save m = (m', Ok tt) ->
  load (filepath (self m)) (rt m') = (rt m', Ok (data (self m))).
Proof.
  intros Hsave. destruct (load_after_save m m' Hsave) as [_ Hload].
  cbn [json_load json_dump Codec.codec] in Hload. by rewrite codec_load_dump in Hload.
Qed.


Lemma add_article_save_failure_run :
  exists m',
    add_article "Bia" "bia@x.com" "Arts" "Third" "Text" morning protected_manager =
      (m', Raise PermissionError) /\
    disk (rt m') = disk (rt protected_manager) /\
    data (self m') <> data (self protected_manager).
Proof.
  destruct (add_article_save_failure "database.json" protected_runtime protected_manager
              protected_manager "Bia" "bia@x.com" "Arts" "Third" "Text" morning
              start_protected (reachable_start _))
    as (m' & Hrun & Hdisk & _ & Hne & _).
  - vm_compute. reflexivity.
  - exists m'. auto.
Defined.

Lemma show_article_negative_index_run :
  show_article (-1) hello_manager = (hello_manager, Ok tt).
Proof.
  refine (proj1 (show_article_negative_index (-1) hello_manager _)). lia.
Defined.
End Runs.

(** * Further properties of the program *)

Section Further.
Context `{JSON}.
Import CatalogManager.

(** X1. Idempotent resolution of a category. Two calls of
    [get_or_create_category] with one name return the same reference, the
    one stored under that name; the second call changes neither the
    dictionary nor the heap, and neither does any number of further calls;
    the dictionary grows by at most one entry; a known name leaves
    everything as it was, and an unknown one allocates exactly one category
    object, without articles, at the end of the heap. *)
Theorem get_or_create_category_idempotent (categories : gmap string loc) r name :
  exists c categories1 r1,
    EntityFactory.get_or_create_category name categories r = (r1, Ok (c, categories1)) /\
    EntityFactory.get_or_create_category name categories1 r1 = (r1, Ok (c, categories1)) /\
    categories1 !! name = Some c /\
    (forall n, exists refs,
       get_or_create_category_each n name categories1 r1 = (r1, Ok (refs, categories1)) /\
       length refs = n /\ Forall (eq c) refs) /\
    size categories <= size categories1 <= S (size categories) /\
    (forall c0, categories !! name = Some c0 -> c = c0 /\ categories1 = categories /\ r1 = r) /\
    (categories !! name = None ->
       c = length (category_objs r) /\
       category_objs r1 = category_objs r ++ [{| cat_name := name; cat_articles := [] |}] /\
       author_objs r1 = author_objs r /\ article_objs r1 = article_objs r /\
       disk r1 = disk r /\ stdout r1 = stdout r).
Proof.
  assert (forall c1 (d : gmap string loc) r1,
            d !! name = Some c1 ->
            EntityFactory.get_or_create_category name d r1 = (r1, Ok (c1, d)))
    as Hknown.
  { intros c1 d r1 Hd. unfold EntityFactory.get_or_create_category. by rewrite Hd. }
  assert (forall c1 (d : gmap string loc) r1 n,
            d !! name = Some c1 ->
            exists refs,
              get_or_create_category_each n name d r1 = (r1, Ok (refs, d)) /\
              length refs = n /\ Forall (eq c1) refs) as Heach.
  { intros c1 d r1 n Hd. induction n as [|n (refs & Hrun & Hlen & Hall)].
    - by exists [].
    - exists (c1 :: refs). cbn [get_or_create_category_each].
      erewrite bind_ok by (by apply Hknown). cbv beta iota.
      erewrite bind_ok by exact Hrun. cbn.
      split_and!; [done|by rewrite Hlen|by constructor]. }
  destruct (categories !! name) as [c0|] eqn:Hlookup.
  - exists c0, categories, r. split_and!; eauto.
    + intros ? [= <-]. done.
    + done.
  - exists (length (category_objs r)), (<[name := length (category_objs r)]> categories),
      (set_category_objs
         (category_objs r ++ [{| cat_name := name; cat_articles := [] |}]) r).
    assert (<[name := length (category_objs r)]> categories !! name =
              Some (length (category_objs r))) as Hnew by apply lookup_insert_eq.
    split_and!; eauto.
    + unfold EntityFactory.get_or_create_category. by rewrite Hlookup.
    + rewrite map_size_insert_None by done. lia.
    + rewrite map_size_insert_None by done. lia.
    + done.
    + intros _. by split_and!.
Qed.

(** X2. [ArticleFactory.create_article] on a live author and a live
    category returns a fresh reference to an article that is already
    published, at the clock reading of the call, and that holds the given
    title, content, author and category. The new reference is appended to
    the article list of that author and of that category; every other
    author, category and article object, the disk and the terminal are as
    before. *)
Theorem create_article_registers title content author category now r ao co :
  author_objs r !! author = Some ao ->
  category_objs r !! category = Some co ->
  exists r',
    ArticleFactory.create_article title content author category now r =
      (r', Ok (length (article_objs r))) /\
    article_objs r !! length (article_objs r) = None /\
    article_objs r' =
      article_objs r ++
        [{| article_title := title; article_content := content;
            article_author := author; article_category := category;
            article_published_at := Some now |}] /\
    Article.published_at (length (article_objs r)) r' = (r', Ok (Some now)) /\
    author_objs r' !! author =
      Some {| author_name := author_name ao; author_email := author_email ao;
              author_articles := author_articles ao ++ [length (article_objs r)] |} /\
    (forall l, l <> author -> author_objs r' !! l = author_objs r !! l) /\
    category_objs r' !! category =
      Some {| cat_name := cat_name co;
              cat_articles := cat_articles co ++ [length (article_objs r)] |} /\
    (forall l, l <> category -> category_objs r' !! l = category_objs r !! l) /\
    disk r' = disk r /\ stdout r' = stdout r.
Proof.
  intros Ha Hc. exists (created title content author category now ao co r).
  split_and!.
  - by apply create_article_run.
  - apply lookup_ge_None. lia.
  - done.
  - unfold Article.published_at, Article.read. unfold_monad.
    by rewrite created_article_lookup.
  - by apply created_author_lookup.
  - intros l Hl. cbn. by rewrite list_lookup_insert_ne.
  - by apply created_category_lookup.
  - intros l Hl. cbn. by rewrite list_lookup_insert_ne.
  - done.
  - done.
Qed.

(** X3. [Article.publish] is not guarded: on an article that exists it
    always succeeds and sets the timestamp to the clock reading, so a second
    call replaces the timestamp of the first; title, content, author and
    category stay, and so do all other objects. *)
Theorem publish_replaces_timestamp article now1 now2 r o :
  article_objs r !! article = Some o ->
  exists r1 r2,
    Article.publish article now1 r = (r1, Ok tt) /\
    Article.publish article now2 r1 = (r2, Ok tt) /\
    article_objs r1 !! article =
      Some {| article_title := article_title o; article_content := article_content o;
              article_author := article_author o; article_category := article_category o;
              article_published_at := Some now1 |} /\
    article_objs r2 !! article =
      Some {| article_title := article_title o; article_content := article_content o;
              article_author := article_author o; article_category := article_category o;
              article_published_at := Some now2 |} /\
    (forall l, l <> article -> article_objs r2 !! l = article_objs r !! l) /\
    author_objs r2 = author_objs r /\ category_objs r2 = category_objs r /\
    disk r2 = disk r /\ stdout r2 = stdout r.
Proof.
  intros Ho. pose proof (lookup_lt_Some _ _ _ Ho) as Hlt.
  eexists _, _. split_and!.
  - unfold Article.publish, Article.read. unfold_monad. rewrite Ho. reflexivity.
  - unfold Article.publish, Article.read. unfold_monad. cbn.
    rewrite list_lookup_insert_eq by done. reflexivity.
  - cbn. by rewrite list_lookup_insert_eq.
  - cbn. rewrite list_lookup_insert_eq; [done|]. by rewrite length_insert.
  - intros l Hl. cbn. by rewrite !list_lookup_insert_ne.
  - done.
  - done.
  - done.
  - done.
Qed.

(** X4. The constructor. When it returns, the keys of the author
    dictionary are exactly the emails of the author records and the keys of
    the category dictionary exactly the names of the category records; it
    has allocated one author object per author record and one category
    object per category record, in order and without articles, and no
    article object; and for an email that several records share, the
    dictionary holds the object made from the last of them. *)
Theorem init_last_record_wins fp r m0 :
  start fp r = Some m0 ->
  keys_in_sync m0 /\
  author_objs (rt m0) = author_objs r ++ (author_of_record <$> doc_authors (data (self m0))) /\
  category_objs (rt m0) =
    category_objs r ++ (category_of_record <$> doc_categories (data (self m0))) /\
  article_objs (rt m0) = article_objs r /\
  (forall email n, last_name email (doc_authors (data (self m0))) = Some n ->
     exists l, authors (self m0) !! email = Some l /\
       author_objs (rt m0) !! l =
         Some {| author_name := n; author_email := email; author_articles := [] |}).
Proof.
  intros Hstart. split; [by eapply keys_in_sync_init|].
  unfold start in Hstart. destruct (__init__ fp r) as [r' [s|e]] eqn:Hinit; [|done].
  injection Hstart as <-. cbn [rt self].
  destruct (init_shape _ _ _ _ Hinit) as (Ha & Hc & Hr').
  split_and!; try (by rewrite Hr').
  intros email n Hlast.
  pose proof (authors_by_email_lookup (doc_authors (data s)) ∅ r (authors s) email) as Hl.
  rewrite Ha, Hlast in Hl. destruct (Hl eq_refl) as (l & Hkey & Hobj).
  exists l. split; [done|]. by rewrite Hr'.
Qed.

(** X5. The dictionaries track the document. In every state a manager
    reaches from its construction through [add_article] calls, failed ones
    included, an email is a key of the author dictionary exactly when an
    author record has it, and a name is a key of the category dictionary
    exactly when a category record has it. *)
Theorem dictionaries_track_document fp r0 m0 m :
  start fp r0 = Some m0 ->
  reachable m0 m ->
  keys_in_sync m /\
  (forall email, is_Some (authors (self m) !! email) <-> email ∈ emails (data (self m))) /\
  (forall name, is_Some (categories (self m) !! name) <-> name ∈ names (data (self m))).
Proof.
  intros Hstart Hreach. destruct (start_inv _ _ _ Hstart) as (Hok0 & _).
  assert (keys_in_sync m) as Hkeys.
  { eapply reachable_keys_in_sync; [done| |done]. by eapply keys_in_sync_init. }
  split_and!; [done| |].
  - intros email. symmetry. by apply elem_of_emails_dom.
  - intros name. symmetry. by apply elem_of_names_dom.
Qed.

(** X6. Author records carry the names of the author objects. When the
    document found at construction has no two author records with one
    email, then in every state reached through [add_article] calls each
    author record's email is a key of the dictionary, and the object stored
    under it has the name written in the record. *)
Theorem author_records_name_objects fp r0 m0 m :
  start fp r0 = Some m0 ->
  NoDup (emails (data (self m0))) ->
  reachable m0 m ->
  names_agree m.
Proof.
  intros Hstart Hnd Hreach. destruct (start_inv _ _ _ Hstart) as (Hok0 & _).
  eapply reachable_names_agree; [done| |done]. by eapply names_agree_init.
Qed.

(** X7. The outcome of [add_article] is the outcome of its [save]. On a
    manager reached from its construction, a call runs up to its final
    [save] without raising and without touching the disk or the terminal; by
    then the heap has one article object more and the record of the call is
    the last of the document. The call then raises what [save] raises on
    that state, if it raises, and otherwise returns the reference of the new
    article, which is the number of article objects before the call. *)
Theorem add_article_outcome fp r0 m0 m name email category_name title content now :
  start fp r0 = Some m0 ->
  reachable m0 m ->
  exists m_rec,
    filepath (self m_rec) = fp /\
    disk (rt m_rec) = disk (rt m) /\
    stdout (rt m_rec) = stdout (rt m) /\
    length (article_objs (rt m_rec)) = S (length (article_objs (rt m))) /\
    doc_articles (data (self m_rec)) =
      doc_articles (data (self m)) ++
        [{| r_title := title; r_content := content; r_author := email;
            r_category := category_name; r_published_at := strftime now |}] /\
    add_article name email category_name title content now m =
      match save m_rec with
      | (m', Ok _) => (m', Ok (length (article_objs (rt m))))
      | (m', Raise e) => (m', Raise e)
      end.
Proof.
  intros Hstart Hreach. destruct (start_inv _ _ _ Hstart) as (Hok0 & Hfp0 & _).
  destruct (reachable_inv (fun _ => True) m0 m) as (Hok & _ & Hfp & _); try done.
  destruct (add_article_trace name email category_name title content now m Hok)
    as (ao & co & _ & _ & Hemail & _ & Hcname & _ & _ & Hrun).
  destruct (resolved_disk name email category_name m) as (Hdisk & Hout & Harts).
  eexists. split_and!; [| | | | |exact Hrun].
  - cbn. by rewrite Hfp.
  - cbn [recorded rt created disk]. exact Hdisk.
  - cbn [recorded rt created stdout]. exact Hout.
  - cbn [recorded rt created article_objs]. rewrite Harts, length_app. cbn. lia.
  - cbn [recorded self data]. by rewrite document_after_articles, Hemail, Hcname.
Qed.

(** X8. What [add_article] leaves alone. A call on a manager reached from
    its construction prints nothing, keeps the path of the backing file and
    the write protections, and touches no other file; after a successful
    call the backing file holds the text of the whole document now in
    memory, and after a call whose write was refused with
    [PermissionError] it holds what it held. *)
Theorem add_article_frame fp r0 m0 m name email category_name title content now :
  start fp r0 = Some m0 ->
  reachable m0 m ->
  exists m' out,
    add_article name email category_name title content now m = (m', out) /\
    stdout (rt m') = stdout (rt m) /\
    filepath (self m') = fp /\
    readonly (disk (rt m')) = readonly (disk (rt m)) /\
    (forall path, path <> fp ->
       files (disk (rt m')) !! path = files (disk (rt m)) !! path) /\
    (out = Ok (length (article_objs (rt m))) ->
       files (disk (rt m')) !! fp = Some (json_dump (data (self m')))) /\
    (out = Raise PermissionError ->
       files (disk (rt m')) !! fp = files (disk (rt m)) !! fp).
Proof.
  intros Hstart Hreach. destruct (start_inv _ _ _ Hstart) as (Hok0 & Hfp0 & _).
  destruct (reachable_inv (fun _ => True) m0 m) as (Hok & _ & Hfp & _); try done.
  destruct (add_article_effect name email category_name title content now m Hok)
    as (m' & out & Hrun & Hfp' & _ & _ & _ & _ & _ & Hout' & Hro & Hout).
  exists m', out. rewrite Hfp, Hfp0 in *.
  split_and!; try done.
  - intros path Hne. case_decide; destruct Hout as [_ ->]; [done|].
    by rewrite lookup_insert_ne.
  - intros ->. case_decide; destruct Hout as [? ->]; [done|]. by rewrite lookup_insert_eq.
  - intros ->. case_decide; destruct Hout as [? ->]; [done|done].
Qed.

(** X9. The article [add_article] returns. After a successful call the
    returned reference denotes an article object with the title and content
    of the call, published at the clock reading of the call, whose author
    is the object stored under the email and whose category is the object
    stored under the category name; both list the new article among their
    articles, and the record appended to the document shows the same
    title, content, email, category name and time. *)
Theorem add_article_returns_linked_article fp r0 m0 m m' a
    name email category_name title content now :
  start fp r0 = Some m0 ->
  reachable m0 m ->
  add_article name email category_name title content now m = (m', Ok a) ->
  exists la lc ao co,
    article_objs (rt m') !! a =
      Some {| article_title := title; article_content := content;
              article_author := la; article_category := lc;
              article_published_at := Some now |} /\
    article_objs (rt m) !! a = None /\
    authors (self m') !! email = Some la /\
    author_objs (rt m') !! la = Some ao /\
    author_email ao = email /\ a ∈ author_articles ao /\
    categories (self m') !! category_name = Some lc /\
    category_objs (rt m') !! lc = Some co /\
    cat_name co = category_name /\ a ∈ cat_articles co /\
    last (doc_articles (data (self m'))) =
      Some {| r_title := title; r_content := content; r_author := email;
              r_category := category_name; r_published_at := strftime now |}.
Proof.
  intros Hstart Hreach Hrun. destruct (start_inv _ _ _ Hstart) as (Hok0 & _).
  pose proof (reachable_mapping_ok _ _ Hok0 Hreach) as Hok.
  destruct (add_article_heap name email category_name title content now m Hok)
    as (ao & co & Hao & Hco & Hemail & _ & Hcname & Hla & Hlc & Ha & Hc & Hart).
  destruct (add_article_effect name email category_name title content now m Hok)
    as (m2 & out & Hrun' & _ & Hdata & _ & _ & _ & _ & _ & _ & Hout).
  destruct (resolved_disk name email category_name m) as (_ & _ & Harts).
  rewrite Hrun in Hla, Hlc, Ha, Hc, Hart, Hrun'. cbn [fst] in *.
  injection Hrun' as <- <-.
  assert (a = length (article_objs (rt m))) as ->.
  { case_decide; destruct Hout as [Hout _]; congruence. }
  eexists _, _, _, _. split_and!.
  - rewrite Hart, <- Harts. apply created_article_lookup.
  - apply lookup_ge_None. lia.
  - exact Hla.
  - rewrite Ha. by apply created_author_lookup.
  - done.
  - cbn [author_articles]. rewrite Harts. apply elem_of_app. right. apply list_elem_of_here.
  - exact Hlc.
  - rewrite Hc. by apply created_category_lookup.
  - done.
  - cbn [cat_articles]. rewrite Harts. apply elem_of_app. right. apply list_elem_of_here.
  - rewrite Hdata, document_after_articles. apply last_snoc.
Qed.

(** X10. Back-references stay exact. When, in the heap a manager is
    constructed on, every article is listed by its author and by its
    category and every author and category lists only articles of its own,
    the same holds in every state reached through [add_article] calls,
    failed ones included. *)
Theorem back_references_stay_exact fp r0 m0 m :
  start fp r0 = Some m0 ->
  back_references_exact r0 ->
  reachable m0 m ->
  back_references_exact (rt m).
Proof.
  intros Hstart Hrefs Hreach. destruct (start_inv _ _ _ Hstart) as (Hok0 & _).
  eapply reachable_back_references; [done| |done]. by eapply back_references_init.
Qed.

(** X11. [show_catalog] prints the three headed sections of the document,
    one line per record and in the order of the records, which makes four
    lines more than there are records; it returns normally and changes
    nothing but the terminal. *)
Theorem show_catalog_prints_catalog_lines m :
  show_catalog m = (printed (catalog_lines (data (self m))) m, Ok tt) /\
  length (catalog_lines (data (self m))) =
    4 + length (doc_authors (data (self m))) + length (doc_categories (data (self m))) +
    length (doc_articles (data (self m))).
Proof.
  split.
  - unfold show_catalog.
    erewrite bind_ok by apply print_run.
    erewrite bind_ok by apply print_run.
    erewrite bind_ok by reflexivity.
    erewrite bind_ok by apply (for_each_print author_line).
    erewrite bind_ok by apply print_run.
    erewrite bind_ok by reflexivity.
    erewrite bind_ok by apply (for_each_print category_line).
    erewrite bind_ok by apply print_run.
    erewrite bind_ok by reflexivity.
    rewrite (for_each_print article_line). rewrite !printed_app.
    unfold catalog_lines. cbn [printed self data]. by rewrite <- ?app_assoc.
  - unfold catalog_lines. rewrite !length_app, !length_fmap. cbn. lia.
Qed.

(** X12. The selection of the article menu. For every number typed, the
    [try] block of [ReadArticleCommand.execute] behaves as [show_article]
    on the number minus one: it returns normally and its [except] branch
    never runs. A number outside 1..n, n the number of article records,
    prints nothing at all, the invalid-entry message included, and a number
    within prints the two lines of the record it counts to. *)
Theorem select_never_reports escolha m :
  ReadArticleCommand.select escolha m = show_article (escolha - 1) m /\
  (ReadArticleCommand.select escolha m).2 = Ok tt /\
  (~ (1 <= escolha <= Z.of_nat (length (doc_articles (data (self m)))))%Z ->
   ReadArticleCommand.select escolha m = (m, Ok tt)) /\
  (forall a, (1 <= escolha)%Z ->
     doc_articles (data (self m)) !! Z.to_nat (escolha - 1) = Some a ->
     ReadArticleCommand.select escolha m = (printed (render_article a) m, Ok tt)).
Proof.
  assert (forall a, (1 <= escolha)%Z ->
     doc_articles (data (self m)) !! Z.to_nat (escolha - 1) = Some a ->
     show_article (escolha - 1) m = (printed (render_article a) m, Ok tt)) as Hin.
  { intros a Hpos Ha. apply show_article_in_range; [|done].
    apply lookup_lt_Some in Ha. lia. }
  assert (~ (1 <= escolha <= Z.of_nat (length (doc_articles (data (self m)))))%Z ->
     show_article (escolha - 1) m = (m, Ok tt)) as Hout.
  { intros Hrange. apply show_article_out_of_range. lia. }
  assert ((show_article (escolha - 1) m).2 = Ok tt) as Hok.
  { destruct (decide (1 <= escolha <= Z.of_nat (length (doc_articles (data (self m)))))%Z)
      as [Hrange|Hrange]; [|by rewrite Hout].
    destruct (lookup_lt_is_Some_2 (doc_articles (data (self m))) (Z.to_nat (escolha - 1)))
      as [a Ha]; [lia|].
    rewrite (Hin a); [done|lia|done]. }
  assert (ReadArticleCommand.select escolha m = show_article (escolha - 1) m) as Heq.
  { unfold ReadArticleCommand.select, try_except.
    destruct (show_article (escolha - 1) m) as [m' [[]|e]]; [done|done]. }
  rewrite Heq. split_and!; done.
Qed.

(** X13. Restart after a successful [add_article]. When the JSON library
    decodes what it printed for the document now in memory, a manager
    constructed by a new process on the disk the call leaves holds the same
    document and dictionaries with the same keys; its heap has one author
    object per author record, one category object per category record and
    no article object, so the back-references of the articles are not
    rebuilt. *)
Theorem restart_after_add_article fp r0 m0 m m' a
    name email category_name title content now :
  start fp r0 = Some m0 ->
  reachable m0 m ->
  add_article name email category_name title content now m = (m', Ok a) ->
  json_load (json_dump (data (self m'))) = Some (data (self m')) ->
  exists m'',
    start fp (reboot (rt m')) = Some m'' /\
    data (self m'') = data (self m') /\
    dom (authors (self m'')) = dom (authors (self m')) /\
    dom (categories (self m'')) = dom (categories (self m')) /\
    author_objs (rt m'') = author_of_record <$> doc_authors (data (self m')) /\
    category_objs (rt m'') = category_of_record <$> doc_categories (data (self m')) /\
    article_objs (rt m'') = [].
Proof.
  intros Hstart Hreach Hrun Hjson.
  destruct (start_inv _ _ _ Hstart) as (Hok0 & Hfp0 & _).
  destruct (reachable_inv (fun _ => True) m0 m) as (Hok & _ & Hfp & _); try done.
  assert (keys_in_sync m') as [Hka Hkc].
  { apply (reachable_keys_in_sync m0 m' Hok0 (keys_in_sync_init _ _ _ Hstart)).
    pose proof (reachable_call_of name email category_name title content now _ _ Hreach)
      as Hreach'.
    by rewrite Hrun in Hreach'. }
  destruct (add_article_effect name email category_name title content now m Hok)
    as (m2 & out & Hrun' & _ & _ & _ & _ & _ & _ & _ & _ & Hout).
  rewrite Hrun in Hrun'. injection Hrun' as <- <-.
  rewrite Hfp, Hfp0 in Hout.
  assert (files (disk (rt m')) !! fp = Some (json_dump (data (self m')))) as Hfile.
  { case_decide; destruct Hout as [? ->]; [done|]. by rewrite lookup_insert_eq. }
  assert (load fp (reboot (rt m')) = (reboot (rt m'), Ok (data (self m')))) as Hload.
  { rewrite load_run. cbn [reboot disk]. by rewrite Hfile, Hjson. }
  destruct (init_run _ _ _ Hload) as (r'' & s & Hinit & _ & Hdata & _).
  exists {| rt := r''; self := s |}. unfold start. rewrite Hinit. cbn [rt self].
  destruct (init_shape _ _ _ _ Hinit) as (Ha & Hc & Hr'').
  rewrite Hdata in Ha, Hc, Hr''.
  split_and!; try done.
  - rewrite (authors_by_email_dom _ ∅ (reboot (rt m'))) by (by rewrite Ha).
    by rewrite dom_empty_L, (left_id_L ∅ (∪)), Hka.
  - erewrite (categories_by_name_dom _ ∅) by (by rewrite Hc).
    by rewrite dom_empty_L, (left_id_L ∅ (∪)), Hkc.
  - by rewrite Hr''.
  - by rewrite Hr''.
  - by rewrite Hr''.
Qed.


(** X15. Records and objects are created together. On a manager reached
    from its construction, a call of [add_article] with an email that an
    author record already has adds no author record, no author object and
    no key, whatever name it is given; with a new email it appends one
    record with the given name, allocates one object and stores it under
    the email. The same holds for the category name. *)
Theorem add_article_creates_together fp r0 m0 m name email category_name title content now :
  start fp r0 = Some m0 ->
  reachable m0 m ->
  exists m' out,
    add_article name email category_name title content now m = (m', out) /\
    (email ∈ emails (data (self m)) ->
       doc_authors (data (self m')) = doc_authors (data (self m)) /\
       authors (self m') = authors (self m) /\
       length (author_objs (rt m')) = length (author_objs (rt m))) /\
    (email ∉ emails (data (self m)) ->
       doc_authors (data (self m')) =
         doc_authors (data (self m)) ++ [{| a_name := name; a_email := email |}] /\
       authors (self m') = <[email := length (author_objs (rt m))]> (authors (self m)) /\
       length (author_objs (rt m')) = S (length (author_objs (rt m)))) /\
    (category_name ∈ names (data (self m)) ->
       doc_categories (data (self m')) = doc_categories (data (self m)) /\
       categories (self m') = categories (self m) /\
       length (category_objs (rt m')) = length (category_objs (rt m))) /\
    (category_name ∉ names (data (self m)) ->
       doc_categories (data (self m')) =
         doc_categories (data (self m)) ++ [{| c_name := category_name |}] /\
       categories (self m') =
         <[category_name := length (category_objs (rt m))]> (categories (self m)) /\
       length (category_objs (rt m')) = S (length (category_objs (rt m)))).
Proof.
  intros Hstart Hreach. destruct (start_inv _ _ _ Hstart) as (Hok0 & _).
  pose proof (reachable_mapping_ok _ _ Hok0 Hreach) as Hok.
  assert (keys_in_sync m) as Hkeys.
  { exact (reachable_keys_in_sync m0 m Hok0 (keys_in_sync_init _ _ _ Hstart) Hreach). }
  destruct (add_article_heap name email category_name title content now m Hok)
    as (ao & co & _ & _ & _ & _ & _ & _ & _ & Ha & Hc & _).
  destruct (add_article_effect name email category_name title content now m Hok)
    as (m' & out & Hrun & _ & Hdata & Hauthors & Hcategories & _).
  rewrite Hrun in Ha, Hc. cbn [fst] in Ha, Hc.
  apply (f_equal length) in Ha, Hc. unfold created in Ha, Hc.
  cbn [author_objs category_objs] in Ha, Hc.
  rewrite length_insert in Ha. rewrite length_insert in Hc.
  rewrite resolved_author_objs in Ha. rewrite resolved_category_objs in Hc.
  exists m', out. split; [done|].
  rewrite Hdata, Hauthors, Hcategories. unfold document_after, resolved, resolved_name.
  cbn [doc_authors doc_categories].
  split_and!.
  - intros Hin. pose proof Hin as Hk%known_email_elem. rewrite Hk.
    apply (elem_of_emails_dom m email Hkeys) in Hin as [l Hl].
    rewrite Hl in Ha |- *. done.
  - intros Hnin.
    assert (known_email email (doc_authors (data (self m))) = false) as ->.
    { apply not_true_is_false. by rewrite known_email_elem. }
    assert (authors (self m) !! email = None) as Hl.
    { apply eq_None_not_Some. by rewrite <- (elem_of_emails_dom m email Hkeys). }
    rewrite Hl in Ha |- *. rewrite length_app in Ha. cbn in Ha.
    split_and!; [done|done|lia].
  - intros Hin. pose proof Hin as Hk%known_name_elem. rewrite Hk.
    apply (elem_of_names_dom m category_name Hkeys) in Hin as [l Hl].
    rewrite Hl in Hc |- *. done.
  - intros Hnin.
    assert (known_name category_name (doc_categories (data (self m))) = false) as ->.
    { apply not_true_is_false. by rewrite known_name_elem. }
    assert (categories (self m) !! category_name = None) as Hl.
    { apply eq_None_not_Some. by rewrite <- (elem_of_names_dom m category_name Hkeys). }
    rewrite Hl in Hc |- *. rewrite length_app in Hc. cbn in Hc.
    split_and!; [done|done|lia].
Qed.

(** X16. The constructor of [Article]. On a live author and a live
    category it returns a fresh reference to an article that holds the
    given title and content and is not published yet, and it has already
    entered the new reference in the article list of the author and in that
    of the category; [ArticleFactory.create_article] is this constructor
    followed by one [publish], which succeeds. *)
Theorem article_init_unpublished title content author category r ao co :
  author_objs r !! author = Some ao ->
  category_objs r !! category = Some co ->
  exists r',
    Article.__init__ title content author category r = (r', Ok (length (article_objs r))) /\
    Article.published_at (length (article_objs r)) r' = (r', Ok None) /\
    Article.title (length (article_objs r)) r' = (r', Ok title) /\
    Article.content (length (article_objs r)) r' = (r', Ok content) /\
    author_objs r' !! author =
      Some {| author_name := author_name ao; author_email := author_email ao;
              author_articles := author_articles ao ++ [length (article_objs r)] |} /\
    category_objs r' !! category =
      Some {| cat_name := cat_name co;
              cat_articles := cat_articles co ++ [length (article_objs r)] |} /\
    (forall now,
       (Article.publish (length (article_objs r)) now r').2 = Ok tt /\
       ArticleFactory.create_article title content author category now r =
         ((Article.publish (length (article_objs r)) now r').1,
          Ok (length (article_objs r)))).
Proof.
  intros Ha Hc.
  pose proof (lookup_lt_Some _ _ _ Ha) as Hlta.
  pose proof (lookup_lt_Some _ _ _ Hc) as Hltc.
  assert (Article.__init__ title content author category r =
    ({| author_objs :=
          <[author := {| author_name := author_name ao; author_email := author_email ao;
                         author_articles :=
                           author_articles ao ++ [length (article_objs r)] |}]>
            (author_objs r);
        category_objs :=
          <[category := {| cat_name := cat_name co;
                           cat_articles :=
                             cat_articles co ++ [length (article_objs r)] |}]>
            (category_objs r);
        article_objs :=
          article_objs r ++
            [{| article_title := title; article_content := content;
                article_author := author; article_category := category;
                article_published_at := None |}];
        disk := disk r; stdout := stdout r |}, Ok (length (article_objs r)))) as Hinit.
  { unfold Article.__init__, Author.add_article, Category.add_article,
      Author.read, Category.read.
    unfold_monad. cbn. rewrite Ha. cbn. rewrite Hc. reflexivity. }
  eexists. split; [exact Hinit|].
  split_and!.
  - unfold Article.published_at, Article.read. unfold_monad. cbn.
    by rewrite lookup_snoc.
  - unfold Article.title, Article.read. unfold_monad. cbn. by rewrite lookup_snoc.
  - unfold Article.content, Article.read. unfold_monad. cbn. by rewrite lookup_snoc.
  - cbn. by rewrite list_lookup_insert_eq.
  - cbn. by rewrite list_lookup_insert_eq.
  - intros now. unfold ArticleFactory.create_article.
    erewrite bind_ok by exact Hinit.
    unfold Article.publish, Article.read. unfold_monad. cbn.
    by rewrite lookup_snoc.
Qed.

(** X17. Objects keep their identity. Between any two states that a
    manager goes through under [add_article] calls, every author object
    keeps its name and its email and every category object its name, so the
    name first stored for an author is never replaced, and every article
    object stays exactly as it was. *)
Theorem objects_keep_identity fp r0 m0 m1 m2 :
  start fp r0 = Some m0 ->
  reachable m0 m1 ->
  reachable m1 m2 ->
  heap_extends (rt m1) (rt m2) /\
  (forall l o, article_objs (rt m1) !! l = Some o -> article_objs (rt m2) !! l = Some o).
Proof.
  intros Hstart Hreach1 Hreach2. destruct (start_inv _ _ _ Hstart) as (Hok0 & _).
  apply reachable_heap; [|done]. by eapply reachable_mapping_ok.
Qed.
End Further.

(** * The further properties on concrete disks *)

Section FurtherRuns.
Import CatalogManager.
Existing Instance Codec.codec.

Lemma start_duplicate : start "database.json" duplicate_runtime = Some duplicate_manager.
Proof. vm_compute. reflexivity. Qed.

Lemma back_references_empty : back_references_exact empty_runtime.
Proof.
  split_and!; cbn.
  - intros l o Ho. by rewrite lookup_nil in Ho.
  - intros a ao l Ho. by rewrite lookup_nil in Ho.
  - intros c co l Ho. by rewrite lookup_nil in Ho.
Qed.

Lemma second_call_hello :
  add_article "Ana" "ana@x.com" "Tech" "Second" "Post" morning hello_manager =
    ((run_call second_call hello_manager).1, Ok 0).
Proof. vm_compute. reflexivity. Qed.

Lemma create_article_registers_run :
  exists r',
    ArticleFactory.create_article "Hello" "World" 0 0 morning (rt hello_manager) =
      (r', Ok 0) /\
    Article.published_at 0 r' = (r', Ok (Some morning)).
Proof.
  destruct (create_article_registers "Hello" "World" 0 0 morning (rt hello_manager)
              {| author_name := "Ana"; author_email := "ana@x.com"; author_articles := [] |}
              {| cat_name := "Tech"; cat_articles := [] |})
    as (r' & Hrun & _ & _ & Hpub & _).
  - reflexivity.
  - reflexivity.
  - exists r'. split; [exact Hrun|exact Hpub].
Defined.

Lemma publish_replaces_timestamp_run :
  exists r1 r2,
    Article.publish 0 morning (rt (run_call hello_call fresh_manager).1) = (r1, Ok tt) /\
    Article.publish 0 noon r1 = (r2, Ok tt) /\
    Article.published_at 0 r2 = (r2, Ok (Some noon)).
Proof.
  destruct (publish_replaces_timestamp 0 morning noon
              (rt (run_call hello_call fresh_manager).1)
              {| article_title := "Hello"; article_content := "World";
                 article_author := 0; article_category := 0;
                 article_published_at := Some morning |})
    as (r1 & r2 & Hfirst & Hsecond & _ & Hobj & _).
  - vm_compute. reflexivity.
  - exists r1, r2. split_and!; [exact Hfirst|exact Hsecond|].
    unfold Article.published_at, Article.read. unfold_monad. by rewrite Hobj.
Defined.

Lemma init_last_record_wins_run :
  exists l,
    authors (self duplicate_manager) !! "ana@x.com" = Some l /\
    author_objs (rt duplicate_manager) !! l =
      Some {| author_name := "Bia"; author_email := "ana@x.com"; author_articles := [] |}.
Proof.
  destruct (init_last_record_wins "database.json" duplicate_runtime duplicate_manager
              start_duplicate) as (_ & _ & _ & _ & Hlast).
  apply (Hlast "ana@x.com" "Bia"). vm_compute. reflexivity.
Defined.

Lemma dictionaries_track_document_run :
  keys_in_sync (run_call second_call hello_manager).1.
Proof.
  refine (proj1 (dictionaries_track_document "database.json" hello_runtime hello_manager
                   _ start_hello _)).
  apply reachable_call, reachable_start.
Defined.

Lemma author_records_name_objects_run :
  names_agree (run_call second_call hello_manager).1.
Proof.
  refine (author_records_name_objects "database.json" hello_runtime hello_manager
            _ start_hello _ _).
  - apply NoDup_singleton.
  - apply reachable_call, reachable_start.
Defined.

Lemma add_article_outcome_run :
  exists m_rec,
    add_article "Ana" "ana@x.com" "Tech" "Second" "Post" morning hello_manager =
      match save m_rec with
      | (m', Ok _) => (m', Ok 0)
      | (m', Raise e) => (m', Raise e)
      end /\
    length (article_objs (rt m_rec)) = 1 /\
    disk (rt m_rec) = disk hello_runtime.
Proof.
  destruct (add_article_outcome "database.json" hello_runtime hello_manager
              hello_manager "Ana" "ana@x.com" "Tech" "Second" "Post" morning
              start_hello (reachable_start _))
    as (m_rec & _ & Hdisk & _ & Hlen & _ & Hrun).
  exists m_rec. split_and!; [exact Hrun|exact Hlen|exact Hdisk].
Defined.

Lemma add_article_frame_run :
  exists m' out,
    add_article "Ana" "ana@x.com" "Tech" "Second" "Post" morning hello_manager = (m', out) /\
    stdout (rt m') = [] /\
    files (disk (rt m')) !! "notes.txt" = None.
Proof.
  destruct (add_article_frame "database.json" hello_runtime hello_manager hello_manager
              "Ana" "ana@x.com" "Tech" "Second" "Post" morning
              start_hello (reachable_start _))
    as (m' & out & Hrun & Hout & _ & _ & Hother & _).
  exists m', out. split_and!; [exact Hrun|exact Hout|].
  rewrite Hother; [reflexivity|done].
Defined.

Lemma add_article_returns_linked_article_run :
  article_objs (rt (run_call second_call hello_manager).1) !! 0 =
    Some {| article_title := "Second"; article_content := "Post";
            article_author := 0; article_category := 0;
            article_published_at := Some morning |}.
Proof.
  destruct (add_article_returns_linked_article "database.json" hello_runtime hello_manager
              hello_manager (run_call second_call hello_manager).1 0
              "Ana" "ana@x.com" "Tech" "Second" "Post" morning
              start_hello (reachable_start _) second_call_hello)
    as (la & lc & ao & co & Hobj & _ & Hla & _ & _ & _ & Hlc & _).
  rewrite Hobj. vm_compute in Hla, Hlc. by simplify_eq.
Defined.

Lemma back_references_stay_exact_run :
  back_references_exact (rt (run_call second_call (run_call hello_call fresh_manager).1).1).
Proof.
  refine (back_references_stay_exact "database.json" empty_runtime fresh_manager _
            start_fresh_manager back_references_empty _).
  apply reachable_call, reachable_call, reachable_start.
Defined.

Lemma restart_after_add_article_run :
  exists m'',
    start "database.json" (reboot (rt (run_call second_call hello_manager).1)) = Some m'' /\
    data (self m'') = data (self (run_call second_call hello_manager).1) /\
    article_objs (rt m'') = [].
Proof.
  destruct (restart_after_add_article "database.json" hello_runtime hello_manager
              hello_manager (run_call second_call hello_manager).1 0
              "Ana" "ana@x.com" "Tech" "Second" "Post" morning
              start_hello (reachable_start _) second_call_hello)
    as (m'' & Hstart & Hdata & _ & _ & _ & _ & Harts).
  - apply codec_load_dump.
  - exists m''. split_and!; [exact Hstart|exact Hdata|exact Harts].
Defined.


Lemma add_article_creates_together_run :
  exists m' out,
    add_article "Bia" "ana@x.com" "Arts" "Third" "Text" morning hello_manager = (m', out) /\
    doc_authors (data (self m')) = [{| a_name := "Ana"; a_email := "ana@x.com" |}] /\
    doc_categories (data (self m')) = [{| c_name := "Tech" |}; {| c_name := "Arts" |}].
Proof.
  destruct (add_article_creates_together "database.json" hello_runtime hello_manager
              hello_manager "Bia" "ana@x.com" "Arts" "Third" "Text" morning
              start_hello (reachable_start _))
    as (m' & out & Hrun & Hknown & _ & _ & Hnew).
  exists m', out. split_and!; [exact Hrun| |].
  - apply Hknown. apply list_elem_of_here.
  - apply Hnew. vm_compute. intros Hin. apply list_elem_of_singleton in Hin. done.
Defined.

Lemma article_init_unpublished_run :
  exists r',
    Article.__init__ "Hello" "World" 0 0 (rt hello_manager) = (r', Ok 0) /\
    Article.published_at 0 r' = (r', Ok None).
Proof.
  destruct (article_init_unpublished "Hello" "World" 0 0 (rt hello_manager)
              {| author_name := "Ana"; author_email := "ana@x.com"; author_articles := [] |}
              {| cat_name := "Tech"; cat_articles := [] |})
    as (r' & Hrun & Hpub & _).
  - reflexivity.
  - reflexivity.
  - exists r'. split; [exact Hrun|exact Hpub].
Defined.

Lemma objects_keep_identity_run :
  article_objs (rt (run_call second_call (run_call hello_call fresh_manager).1).1) !! 0 =
    Some {| article_title := "Hello"; article_content := "World";
            article_author := 0; article_category := 0;
            article_published_at := Some morning |}.
Proof.
  refine (proj2 (objects_keep_identity "database.json" empty_runtime fresh_manager
                   (run_call hello_call fresh_manager).1
                   (run_call second_call (run_call hello_call fresh_manager).1).1
                   start_fresh_manager _ _) 0 _ _).
  - apply reachable_call, reachable_start.
  - apply reachable_call, reachable_start.
  - vm_compute. reflexivity.
Defined.
End FurtherRuns.
